(** * Genie TTS: text front-end and reference-audio cache

    A shallow embedding of
    - [genie_tts/Chinese/Split.py]        (sentence chunking),
    - [genie_tts/Japanese/JapaneseG2P.py] (Japanese / Chinese phonemizer),
    - [genie_tts/Chinese/ChineseG2P.py]   (Chinese phonemizer),
    - [genie_tts/Audio/ReferenceAudio.py] (reference-audio cache),
    together with the properties the specification states about them.

    Conventions.
    - A Python [str] is a list of Unicode code points ([list N]).
    - A Python call that may raise returns a [result]; code that mutates
      objects runs in a state-and-exception monad whose state survives a
      raised exception, as the Python heap does.
    - Third-party libraries (pyopenjtalk, pypinyin, the ONNX models, the
      audio loader) and the Unicode tables of the interpreter are fields of
      one record of externals, over which every statement is quantified. *)

From stdpp Require Import base option list gmap strings.
From Stdlib Require Import ZArith NArith Lia.

Set Default Proof Using "Type".
Open Scope N_scope.

(* ===================================================================== *)
(** * Python values and built-ins                                          *)
(* ===================================================================== *)

Module Py.

(** A Python string: its code points, in order. *)
Definition str := list N.

(** ASCII literal. *)
Fixpoint u (s : string) : str :=
  match s with
  | EmptyString => []
  | String a r => Ascii.N_of_ascii a :: u r
  end.

(** The collaborators the front-end delegates to. *)
Inductive collaborator :=
| PyOpenJTalk | PyPinyin | BertModel | AudioLoader | Resampler | HubertModel.

(** The exceptions the modelled code can raise. *)
Inductive exn :=
| AttributeError
| KeyError
| ValueError
| IndexError
| CollaboratorFailure (who : collaborator).

Inductive result (A : Type) :=
| Ok (a : A)
| Raise (e : exn).
Arguments Ok {A} a.
Arguments Raise {A} e.

#[global] Instance result_ret : MRet result := fun A a => Ok a.
#[global] Instance result_bind : MBind result := fun A B f r =>
  match r with
  | Ok a => f a
  | Raise e => Raise e
  end.
#[global] Instance result_fmap : FMap result := fun A B f r =>
  match r with
  | Ok a => Ok (f a)
  | Raise e => Raise e
  end.

(** Run [f] over a list left to right, stopping at the first exception. *)
Fixpoint mapM_result {A B} (f : A -> result B) (l : list A) : result (list B) :=
  match l with
  | [] => Ok []
  | x :: xs => y ← f x; ys ← mapM_result f xs; Ok (y :: ys)
  end.

(** [str.isspace] on one code point (the interpreter's whitespace set). *)
Definition isspace (c : N) : bool :=
  ((0x09 <=? c) && (c <=? 0x0D)) || ((0x1C <=? c) && (c <=? 0x20))
  || (c =? 0x85) || (c =? 0xA0) || (c =? 0x1680)
  || ((0x2000 <=? c) && (c <=? 0x200A))
  || (c =? 0x2028) || (c =? 0x2029) || (c =? 0x202F) || (c =? 0x205F)
  || (c =? 0x3000).

Fixpoint lstrip (s : str) : str :=
  match s with
  | [] => []
  | c :: r => if isspace c then lstrip r else s
  end.

Definition rstrip (s : str) : str := rev (lstrip (rev s)).

(** [s.strip()] *)
Definition strip (s : str) : str := rstrip (lstrip s).

(** Truthiness of a string or list: non-empty. *)
Definition truthy {A} (l : list A) : bool :=
  match l with [] => false | _ => true end.

Definition str_eqb (a b : str) : bool := bool_decide (a = b).

Fixpoint is_prefix (a b : str) : bool :=
  match a, b with
  | [], _ => true
  | x :: a', y :: b' => (x =? y) && is_prefix a' b'
  | _ :: _, [] => false
  end.

(** [a in b] for two strings: [a] occurs in [b] as a contiguous substring. *)
Fixpoint substring_of (a b : str) : bool :=
  is_prefix a b ||
  match b with
  | [] => false
  | _ :: b' => substring_of a b'
  end.

Fixpoint take_while (p : N -> bool) (s : str) : str :=
  match s with
  | [] => []
  | c :: r => if p c then c :: take_while p r else []
  end.

Fixpoint strip_prefix (pre s : str) : option str :=
  match pre, s with
  | [], _ => Some s
  | x :: pre', y :: s' => if x =? y then strip_prefix pre' s' else None
  | _ :: _, [] => None
  end.

(** [s.split(sep)] for a one-character separator. *)
Fixpoint split_on (sep : N) (cur s : str) : list str :=
  match s with
  | [] => [cur]
  | c :: r => if c =? sep then cur :: split_on sep [] r
              else split_on sep (cur ++ [c]) r
  end.

(** [s.rstrip(chars)] *)
Definition rstrip_chars (chars : N -> bool) (s : str) : str :=
  rev ((fix go (t : str) : str :=
          match t with
          | [] => []
          | c :: r => if chars c then go r else t
          end) (rev s)).

Definition is_ascii (c : N) : bool := c <? 128.
Definition is_ascii_digit (c : N) : bool := (48 <=? c) && (c <=? 57).
Definition is_ascii_upper (c : N) : bool := (65 <=? c) && (c <=? 90).
Definition is_ascii_lower (c : N) : bool := (97 <=? c) && (c <=? 122).
Definition ascii_lower (c : N) : N := if is_ascii_upper c then c + 32 else c.

End Py.
Export Py.

(* ===================================================================== *)
(** * Chinese/Split.py                                                     *)
(* ===================================================================== *)

Module Split.

Definition MIN_SENTENCE_LENGTH : nat := 5.

(** [SENTENCE_TERMINATORS]: full-width comma, period, exclamation mark,
    question mark, and the ellipsis. *)
Definition SENTENCE_TERMINATORS : str := [0xFF0C; 0x3002; 0xFF01; 0xFF1F; 0x2026].

Definition is_terminator (c : N) : bool :=
  existsb (N.eqb c) SENTENCE_TERMINATORS.

(** [VALID_CHAR_PATTERN]: CJK unified ideographs, ASCII letters and digits. *)
Definition is_valid_char (c : N) : bool :=
  ((0x4E00 <=? c) && (c <=? 0x9FFF))
  || is_ascii_lower c || is_ascii_upper c || is_ascii_digit c.

Definition get_valid_text_length (sentence : str) : nat :=
  length (filter (fun c => is_valid_char c = true) sentence).

(** [re.split('(?<=[terminators])', s)]: the lookbehind matches the empty
    string after every terminator, also at the end of the text, so the
    text is cut after each terminator and a text ending in one yields a
    final empty piece. [cur] is the piece being read. *)
Fixpoint re_split_after (cur s : str) : list str :=
  match s with
  | [] => [cur]
  | c :: r => if is_terminator c then (cur ++ [c]) :: re_split_after [] r
              else re_split_after (cur ++ [c]) r
  end.

(** [[s.strip() for s in raw_sentences if s.strip()]] *)
Definition strip_nonblank (pieces : list str) : list str :=
  map strip (filter (fun s => truthy (strip s) = true) pieces).

(** One turn of the merge loop over [final_sentences]. *)
Definition merge_step (final_sentences : list str) (sentence : str) : list str :=
  let clean_len := get_valid_text_length sentence in
  if truthy final_sentences && (clean_len <? MIN_SENTENCE_LENGTH)%nat
  then match last final_sentences with
       | Some prev => removelast final_sentences ++ [prev ++ sentence]
       | None => final_sentences
       end
  else final_sentences ++ [sentence].

Definition split_chinese_text (long_text : str) : list str :=
  if negb (truthy long_text) then []
  else
    let raw_sentences := strip_nonblank (re_split_after [] long_text) in
    if negb (truthy raw_sentences)
    then (if truthy (strip long_text) then [long_text] else [])
    else fold_left merge_step raw_sentences [].

End Split.

(* ===================================================================== *)
(** * External collaborators                                               *)
(* ===================================================================== *)

(** A float32 value is kept as its bit pattern: the modelled code stores and
    copies such values and never computes with them. *)
Definition f32 := Z.
Definition matrix := list (list f32).

(** An array as an inference session returns it; its content is opaque. *)
Inductive ndarray := NDArray (shape : list nat) (data : list f32).

(** What the modelled files import and do not define: the interpreter's
    Unicode tables beyond ASCII, pyopenjtalk, pypinyin, [SymbolsV2],
    [Utils.Constants], the audio loader, the resampler and the two ONNX
    models. Calls that can fail return a [result]. *)
Record Externals := {
  (** decimal value of a non-ASCII code point of category Nd, if it is one *)
  unicode_digit : N -> option N;
  (** [str.lower] on a string that has a non-ASCII code point *)
  unicode_lower : str -> str;
  (** [pyopenjtalk.make_label(pyopenjtalk.run_frontend(text))] *)
  make_label : str -> result (list str);
  (** [pyopenjtalk.g2p(text)] *)
  openjtalk_g2p : str -> result str;
  (** [pypinyin.pinyin(text, style=TONE3, neutral_tone_with_five=True)] *)
  pinyin : str -> result (list (list str));
  (** [get_initials(syllable, strict=False)], [get_finals(syllable, strict=False)] *)
  get_initials : str -> str;
  get_finals : str -> str;
  (** [SymbolsV2.symbol_to_id_v2] *)
  symbol_to_id_v2 : gmap str Z;
  (** [Utils.Constants.BERT_FEATURE_DIM] *)
  BERT_FEATURE_DIM : nat;
  (** tokenizer and ONNX session of [_extract_bert_features]:
      [last_hidden_state[0]] for a text *)
  bert_last_hidden_state : str -> result matrix;
  (** [load_audio(audio_path, target_sampling_rate=32000)] *)
  load_audio : str -> result (list f32);
  (** [soxr.resample(audio, 32000, 16000, quality='hq')] *)
  soxr_resample : list f32 -> result (list f32);
  (** [model_manager.load_cn_hubert()] *)
  load_cn_hubert : result unit;
  (** [model_manager.cn_hubert.run(None, {'input_values': audio})[0]] *)
  cn_hubert_run : matrix -> result (list ndarray)
}.

Module PyUnicode.
Section WithExternals.
Variable E : Externals.

(** Decimal value of a digit character ([\d], and what [int] reads). *)
Definition digit_value (c : N) : option N :=
  if is_ascii_digit c then Some (c - 48)
  else if is_ascii c then None
  else unicode_digit E c.

Definition is_digit (c : N) : bool :=
  match digit_value c with Some _ => true | None => false end.

(** [s.lower()] *)
Definition lower (s : str) : str :=
  if forallb is_ascii s then map ascii_lower s else unicode_lower E s.

(** Value of a run of digits read in base ten. *)
Definition digits_value (ds : str) : Z :=
  fold_left (fun acc c => (10 * acc + Z.of_N (default 0%N (digit_value c)))%Z) ds 0%Z.

(** [int(s)] for a string of digits with an optional leading minus sign,
    the only shapes the patterns below can capture. Integers are
    unbounded. *)
Definition int (s : str) : result Z :=
  match s with
  | [] => Raise ValueError
  | c :: ds =>
      if c =? 0x2D then
        if truthy ds && forallb is_digit ds then Ok (- digits_value ds)%Z
        else Raise ValueError
      else
        if forallb is_digit s then Ok (digits_value s)
        else Raise ValueError
  end.

End WithExternals.
End PyUnicode.

(* ===================================================================== *)
(** * Regular expressions of the shape the front-end uses                  *)
(* ===================================================================== *)

Module Re.

(** A pattern [prefix ( class{min,} ) term] with one group: a literal
    prefix, a run of characters of one class (at least one when
    [pat_plus]), and a terminating character outside the class. With the
    terminator outside the class, a greedy run ([+]) and a lazy run ([*?])
    both stop at the first character outside the class, so backtracking
    never finds another split. *)
Record pattern := {
  pat_prefix : str;
  pat_class : N -> bool;
  pat_plus : bool;
  pat_term : N
}.

(** A match that starts at the head of [s]: the group it captures. *)
Definition match_here (p : pattern) (s : str) : option str :=
  match strip_prefix (pat_prefix p) s with
  | Some rest =>
      let g := take_while (pat_class p) rest in
      match drop (length g) rest with
      | t :: _ =>
          if (t =? pat_term p) && (negb (pat_plus p) || truthy g)
          then Some g else None
      | [] => None
      end
  | None => None
  end.

(** [re.search(p, s)]: group 1 of the leftmost match, if there is one. *)
Fixpoint search (p : pattern) (s : str) : option str :=
  match match_here p s with
  | Some g => Some g
  | None => match s with
            | [] => None
            | _ :: r => search p r
            end
  end.

(** [re.split] on a pattern that is one character class: the pieces
    between the matching characters, empty pieces included. *)
Fixpoint split_class (cls : N -> bool) (cur s : str) : list str :=
  match s with
  | [] => [cur]
  | c :: r => if cls c then cur :: split_class cls [] r
              else split_class cls (cur ++ [c]) r
  end.

(** [re.findall] on a pattern that is one character class. *)
Definition findall_class (cls : N -> bool) (s : str) : list str :=
  map (fun c => [c]) (filter (fun c => cls c = true) s).

(** [re.split] on a pattern [([class]+)]: the pieces between the maximal
    runs of class characters, and the runs themselves in between. The
    result alternates piece, run, piece, ..., piece. [cur] is the piece or
    run being read, [in_run] says which. *)
Fixpoint split_runs (cls : N -> bool) (in_run : bool) (cur s : str) : list str :=
  match s with
  | [] => if in_run then [cur; []] else [cur]
  | c :: r =>
      if cls c then
        if in_run then split_runs cls true (cur ++ [c]) r
        else cur :: split_runs cls true [c] r
      else
        if in_run then cur :: split_runs cls false [c] r
        else split_runs cls false (cur ++ [c]) r
  end.

End Re.

(* ===================================================================== *)
(** * Japanese/JapaneseG2P.py                                              *)
(* ===================================================================== *)

Module JapaneseG2P.
Import PyUnicode.

(** [_CHINESE_CHARACTERS_RE = [一-龥]] *)
Definition is_chinese_char (c : N) : bool := (0x4E00 <=? c) && (c <=? 0x9FA5).

Definition is_chinese (text : str) : bool := existsb is_chinese_char text.

(** The characters of [_CONSECUTIVE_PUNCTUATION_RE]: [,./?!~] and the
    ellipsis and the katakana middle dot. *)
Definition is_repeatable_punctuation (c : N) : bool :=
  existsb (N.eqb c) [0x2C; 0x2E; 0x2F; 0x3F; 0x21; 0x7E; 0x2026; 0x30FB].

(** The reading of the percent sign, in katakana. *)
Definition PERCENT_READING : str := [0x30D1; 0x30FC; 0x30BB; 0x30F3; 0x30C8].

(** [re.sub(c, replacement, text)] for a one-character pattern *)
Definition sub_char (c : N) (replacement text : str) : str :=
  flat_map (fun d => if d =? c then replacement else [d]) text.

(** [_CONSECUTIVE_PUNCTUATION_RE.sub(r"\1", text)]: a run of two or more
    equal punctuation characters is replaced by one of them. A character
    that is followed by an equal one is dropped, which keeps the last
    character of each run. *)
Fixpoint collapse_punctuation (text : str) : str :=
  match text with
  | [] => []
  | c :: r =>
      match r with
      | d :: _ =>
          if is_repeatable_punctuation c && (c =? d) then collapse_punctuation r
          else c :: collapse_punctuation r
      | [] => [c]
      end
  end.

Section WithExternals.
Variable E : Externals.

(** [_JAPANESE_CHARACTERS_RE] *)
Definition is_japanese_char (c : N) : bool :=
  is_ascii_upper c || is_ascii_lower c || is_digit E c
  || (c =? 0x3005)
  || ((0x3040 <=? c) && (c <=? 0x30FF))
  || ((0x4E00 <=? c) && (c <=? 0x9FFF))
  || ((0xFF11 <=? c) && (c <=? 0xFF19))
  || ((0xFF21 <=? c) && (c <=? 0xFF3A))
  || ((0xFF41 <=? c) && (c <=? 0xFF5A))
  || ((0xFF66 <=? c) && (c <=? 0xFF9D)).

(** [_JAPANESE_MARKS_RE]: the complement class. *)
Definition is_japanese_mark (c : N) : bool := negb (is_japanese_char c).

Definition _text_normalize (text : str) : str :=
  let text := sub_char 0x25 PERCENT_READING text in
  let text := sub_char 0xFF05 PERCENT_READING text in
  let text := collapse_punctuation text in
  lower E text.

Definition _post_replace_phoneme (ph : str) : str :=
  let rep_map : list (str * str) :=
    [ ([0xFF1A], u ","); ([0xFF1B], u ","); ([0xFF0C], u ",");
      ([0x3002], u "."); ([0xFF01], u "!"); ([0xFF1F], u "?");
      ([0x0A], u "."); ([0xB7], u ","); ([0x3001], u ",");
      (u "...", [0x2026]) ] in
  match find (fun kv => str_eqb (fst kv) ph) rep_map with
  | Some kv => snd kv
  | None => ph
  end.

(** The patterns of [_pyopenjtalk_g2p_prosody]. *)
Definition RE_P3 : Re.pattern :=   (* -(.*?)\+ *)
  {| Re.pat_prefix := u "-";
     Re.pat_class := fun c => negb (c =? 0x2B) && negb (c =? 0x0A);
     Re.pat_plus := false; Re.pat_term := 0x2B |}.
Definition RE_E3 : Re.pattern :=   (* !(\d+)_ *)
  {| Re.pat_prefix := u "!"; Re.pat_class := is_digit E;
     Re.pat_plus := true; Re.pat_term := 0x5F |}.
Definition RE_A1 : Re.pattern :=   (* /A:([0-9\-]+)\+ *)
  {| Re.pat_prefix := u "/A:";
     Re.pat_class := fun c => is_ascii_digit c || (c =? 0x2D);
     Re.pat_plus := true; Re.pat_term := 0x2B |}.
Definition RE_A2 : Re.pattern :=   (* \+(\d+)\+ *)
  {| Re.pat_prefix := u "+"; Re.pat_class := is_digit E;
     Re.pat_plus := true; Re.pat_term := 0x2B |}.
Definition RE_A3 : Re.pattern :=   (* \+(\d+)/ *)
  {| Re.pat_prefix := u "+"; Re.pat_class := is_digit E;
     Re.pat_plus := true; Re.pat_term := 0x2F |}.
Definition RE_F1 : Re.pattern :=   (* /F:(\d+)_ *)
  {| Re.pat_prefix := u "/F:"; Re.pat_class := is_digit E;
     Re.pat_plus := true; Re.pat_term := 0x5F |}.

(** A pattern whose group is [(\d+)]. *)
Definition digit_pattern (p : Re.pattern) : Prop :=
  Re.pat_class p = is_digit E /\ Re.pat_plus p = true.

Definition _numeric_feature_by_regex (regex : Re.pattern) (s : str) : result Z :=
  match Re.search regex s with
  | Some g => int E g
  | None => Ok (-50)%Z
  end.

(** The phone of a label: group 1 of [-(.*?)\+], lower-cased when it is a
    substring of ["AEIOU"]. A label without the pattern makes [.group]
    fail on [None]. *)
Definition label_phone (lab_curr : str) : result str :=
  match Re.search RE_P3 lab_curr with
  | Some p3 => Ok (if substring_of p3 (u "AEIOU") then lower E p3 else p3)
  | None => Raise AttributeError
  end.

(** The [if / elif / elif] that closes the loop body. *)
Definition boundary_marker (p3 : str) (a1 a2 a3 f1 a2_next : Z) : list str :=
  if (a3 =? 1)%Z && (a2_next =? 1)%Z && substring_of p3 (u "aeiouAEIOUNcl")
  then [u "#"]
  else if (a1 =? 0)%Z && (a2_next =? a2 + 1)%Z && negb (a2 =? f1)%Z
  then [u "]"]
  else if (a2 =? 1)%Z && (a2_next =? 2)%Z
  then [u "["]
  else [].

(** One turn of the loop over [enumerate(labels)]: what it appends to
    [phones]. [len] is [len(labels)]; [lab_next] is [labels[n + 1]], or the
    empty string at the last label. *)
Definition label_phones (len n : nat) (lab_curr lab_next : str) : result (list str) :=
  p3 ← label_phone lab_curr;
  if str_eqb p3 (u "sil") then
    if (n =? 0)%nat then Ok [u "^"]
    else if (n =? len - 1)%nat then
      e3 ← _numeric_feature_by_regex RE_E3 lab_curr;
      Ok [if (e3 =? 1)%Z then u "?" else u "$"]
    else Ok []
  else if str_eqb p3 (u "pau") then Ok [u "_"]
  else
    a1 ← _numeric_feature_by_regex RE_A1 lab_curr;
    a2 ← _numeric_feature_by_regex RE_A2 lab_curr;
    a3 ← _numeric_feature_by_regex RE_A3 lab_curr;
    f1 ← _numeric_feature_by_regex RE_F1 lab_curr;
    a2_next ← _numeric_feature_by_regex RE_A2 lab_next;
    Ok (p3 :: boundary_marker p3 a1 a2 a3 f1 a2_next).

(** A label the loop body accepts: it has a phone, and when the phone is
    neither silence nor pause its [/A:] field, if present, reads as an
    integer. *)
Definition label_well_formed (lab : str) : Prop :=
  exists p3, label_phone lab = Ok p3
    /\ (p3 = u "sil" \/ p3 = u "pau"
        \/ exists a1, _numeric_feature_by_regex RE_A1 lab = Ok a1).

Fixpoint prosody_loop (len n : nat) (labels : list str) : result (list str) :=
  match labels with
  | [] => Ok []
  | lab_curr :: rest =>
      let lab_next := match rest with l :: _ => l | [] => [] end in
      ph ← label_phones len n lab_curr lab_next;
      phs ← prosody_loop len (S n) rest;
      Ok (ph ++ phs)
  end.

Definition _pyopenjtalk_g2p_prosody (text : str) : result (list str) :=
  labels ← make_label E text;
  prosody_loop (length labels) 0 labels.

(** One syllable of [_chinese_g2p]: the initial, and the final with its
    tone digit. *)
Definition syllable_phonemes (p_list : list str) : result (list str) :=
  match p_list with
  | [] => Raise IndexError
  | syllable_with_tone :: _ =>
      let is_tone_digit c := (49 <=? c) && (c <=? 53) in
      let syllable := rstrip_chars is_tone_digit syllable_with_tone in
      let tone := drop (length syllable) syllable_with_tone in
      let tone := if negb (truthy tone) then u "5" else tone in
      let initial := get_initials E syllable in
      let final := get_finals E syllable in
      Ok ((if truthy initial then [initial] else [])
          ++ (if truthy final then [final ++ tone] else []))
  end.

Definition _chinese_g2p (text : str) : result (list str) :=
  pinyins ← pinyin E text;
  (fun ls => concat ls) <$> mapM_result syllable_phonemes pinyins.

(** [l[1:-1]] *)
Definition slice_1_m1 {A} (l : list A) : list A :=
  drop 1 (take (length l - 1) l).

(** The phones of one non-empty segment between marks. *)
Definition segment_phones (with_prosody : bool) (segment : str) : result (list str) :=
  if with_prosody then slice_1_m1 <$> _pyopenjtalk_g2p_prosody segment
  else split_on 0x20 [] <$> openjtalk_g2p E segment.

(** The loop of [g2p] over [enumerate(japanese_segments)]. *)
Fixpoint g2p_loop (with_prosody : bool) (punctuation_marks : list str)
    (i : nat) (japanese_segments : list str) : result (list str) :=
  match japanese_segments with
  | [] => Ok []
  | segment :: rest =>
      phones ← (if truthy segment then segment_phones with_prosody segment
                else Ok []);
      let marks :=
        match punctuation_marks !! i with
        | Some m => let mark := strip m in
                    if truthy mark then [mark] else []
        | None => []
        end in
      more ← g2p_loop with_prosody punctuation_marks (S i) rest;
      Ok (phones ++ marks ++ more)
  end.

Definition g2p (text : str) (with_prosody : bool) : result (list str) :=
  if negb (truthy (strip text)) then Ok []
  else if is_chinese text then _chinese_g2p text
  else
    let norm_text := _text_normalize text in
    let japanese_segments := Re.split_class is_japanese_mark [] norm_text in
    let punctuation_marks := Re.findall_class is_japanese_mark norm_text in
    phonemes ← g2p_loop with_prosody punctuation_marks 0 japanese_segments;
    Ok (map _post_replace_phoneme phonemes).

(** The two steps that close [japanese_to_phones] and [chinese_to_phones]:
    replace a symbol that is not a key of [symbol_to_id_v2] by ["UNK"],
    then look every symbol up. *)
Definition phones_to_ids (phones : list str) : result (list Z) :=
  let valid_phones :=
    map (fun ph => if bool_decide (is_Some (symbol_to_id_v2 E !! ph))
                   then ph else u "UNK") phones in
  mapM_result (fun ph => match symbol_to_id_v2 E !! ph with
                         | Some i => Ok i
                         | None => Raise KeyError
                         end) valid_phones.

Definition japanese_to_phones (text : str) : result (list Z) :=
  phones ← g2p text true;
  phones_to_ids phones.

(** The id a symbol stands for when [unk] is the id of ["UNK"]. *)
Definition id_of (unk : Z) (ph : str) : Z :=
  default unk (symbol_to_id_v2 E !! ph).

End WithExternals.
End JapaneseG2P.

(* ===================================================================== *)
(** * Chinese/ChineseG2P.py                                                *)
(* ===================================================================== *)

Module ChineseG2P.

(** The character class of [_PUNCTUATION_RE]. *)
Definition is_punctuation (c : N) : bool :=
  existsb (N.eqb c)
    [0x2C; 0x2E; 0x2F; 0x3F; 0x21; 0x7E; 0x2026; 0x30FB; 0x3B; 0x3A; 0x22;
     0x27; 0x0A; 0x09; 0x20; 0x3001; 0xFF0C; 0x3002; 0xFF01; 0xFF1F; 0xFF1B;
     0xFF1A].

(** [_PUNCTUATION_RE.fullmatch(segment)] *)
Definition fullmatch_punctuation (segment : str) : bool :=
  truthy segment && forallb is_punctuation segment.

Section WithExternals.
Variable E : Externals.

(** The dictionary is the one of [JapaneseG2P._post_replace_phoneme]. *)
Definition _post_replace_phoneme (ph : str) : str :=
  JapaneseG2P._post_replace_phoneme ph.

(** The body is the one of [JapaneseG2P._chinese_g2p]. *)
Definition _get_phonemes (text : str) : result (list str) :=
  pinyins ← pinyin E text;
  (fun ls => concat ls) <$> mapM_result (JapaneseG2P.syllable_phonemes E) pinyins.

Definition segment_phonemes (segment : str) : result (list str) :=
  if negb (truthy segment) then Ok []
  else if fullmatch_punctuation segment then Ok [strip segment]
  else _get_phonemes segment.

Definition g2p (text : str) : result (list str) :=
  if negb (truthy (strip text)) then Ok []
  else
    let segments := Re.split_runs is_punctuation false [] text in
    result_phonemes ← (fun ls => concat ls) <$> mapM_result segment_phonemes segments;
    let processed_phonemes := map _post_replace_phoneme result_phonemes in
    Ok (filter (fun p => truthy p = true) processed_phonemes).

Definition chinese_to_phones (text : str) : result (list Z) :=
  phones ← g2p text;
  JapaneseG2P.phones_to_ids E phones.

End WithExternals.
End ChineseG2P.

(* ===================================================================== *)
(** * Utils.LRUCacheDict                                                   *)
(* ===================================================================== *)

Module LRUCacheDict.
Section Cache.
Context {V : Type}.

(** Modelled from the spec: the class [LRUCacheDict] of [Utils/Utils.py],
    which the reference-audio cache instantiates. The specification
    describes a mapping from key to entry with a maximum size fixed at
    construction, whose order of insertion and access is tracked; a lookup
    counts as an access; an insertion that exceeds the capacity evicts
    exactly one entry, the least recently used. The items are kept least
    recently used first. *)
Record t := {
  capacity : nat;
  items : list (str * V)
}.

(** Modelled from the spec: [LRUCacheDict(capacity=cap)], empty. *)
Definition new (cap : nat) : t := {| capacity := cap; items := [] |}.

Definition keys (c : t) : list str := map fst (items c).

Definition without (k : str) (l : list (str * V)) : list (str * V) :=
  filter (fun kv => fst kv <> k) l.

Definition lookup (k : str) (c : t) : option V :=
  snd <$> find (fun kv => str_eqb (fst kv) k) (items c).

(** Modelled from the spec: [k in c], which is not an access. *)
Definition contains (k : str) (c : t) : bool :=
  match lookup k c with Some _ => true | None => false end.

(** Modelled from the spec: [c[k]], an access: the value, and the cache
    with [k] now most recently used. *)
Definition getitem (k : str) (c : t) : option (V * t) :=
  match lookup k c with
  | Some v => Some (v, {| capacity := capacity c;
                          items := without k (items c) ++ [(k, v)] |})
  | None => None
  end.

(** Modelled from the spec: [c[k] = v]. The key becomes the most recently
    used one; when the cache then exceeds its capacity, exactly one entry,
    the least recently used, is dropped. *)
Definition setitem (k : str) (v : V) (c : t) : t :=
  let inserted := without k (items c) ++ [(k, v)] in
  {| capacity := capacity c;
     items := if (capacity c <? length inserted)%nat then drop 1 inserted
              else inserted |}.

(** The same insertion in the words "if the cache is at capacity, evict the
    least recently used entry before inserting". *)
Definition setitem_evict_first (k : str) (v : V) (c : t) : t :=
  if contains k c
  then {| capacity := capacity c; items := without k (items c) ++ [(k, v)] |}
  else
    let kept := if (capacity c <=? length (items c))%nat
                then drop 1 (items c) else items c in
    {| capacity := capacity c; items := kept ++ [(k, v)] |}.

(** Modelled from the spec: [c.clear()] drops every entry. *)
Definition clear (c : t) : t := {| capacity := capacity c; items := [] |}.

(** One insertion after the other, in the order of the list. *)
Definition insert_all (kvs : list (str * V)) (c : t) : t :=
  fold_left (fun c kv => setitem (fst kv) (snd kv) c) kvs c.

End Cache.
Arguments t : clear implicits.
End LRUCacheDict.

(* ===================================================================== *)
(** * Audio/ReferenceAudio.py                                              *)
(* ===================================================================== *)

Module ReferenceAudio.

(** The attributes of a [ReferenceAudio] object. [None] is an attribute
    that has not been assigned; for [phonemes_seq] and [text_bert] the
    inner [None] is Python's [None]. [phonemes_seq] is the array
    [np.array([ids])], of shape (1, n). *)
Record object := {
  text : option str;
  phonemes_seq : option (option (list (list Z)));
  text_bert : option (option matrix);
  language : option str;
  audio_32k : option (list f32);
  ssl_content : option ndarray;
  _initialized : option bool
}.

(** What [super().__new__(cls)] returns. *)
Definition bare : object :=
  {| text := None; phonemes_seq := None; text_bert := None; language := None;
     audio_32k := None; ssl_content := None; _initialized := None |}.

Definition set_text_attr (v : str) (o : object) : object :=
  {| text := Some v; phonemes_seq := phonemes_seq o; text_bert := text_bert o;
     language := language o; audio_32k := audio_32k o;
     ssl_content := ssl_content o; _initialized := _initialized o |}.
Definition set_phonemes_seq (v : option (list (list Z))) (o : object) : object :=
  {| text := text o; phonemes_seq := Some v; text_bert := text_bert o;
     language := language o; audio_32k := audio_32k o;
     ssl_content := ssl_content o; _initialized := _initialized o |}.
Definition set_text_bert (v : option matrix) (o : object) : object :=
  {| text := text o; phonemes_seq := phonemes_seq o; text_bert := Some v;
     language := language o; audio_32k := audio_32k o;
     ssl_content := ssl_content o; _initialized := _initialized o |}.
Definition set_language (v : str) (o : object) : object :=
  {| text := text o; phonemes_seq := phonemes_seq o; text_bert := text_bert o;
     language := Some v; audio_32k := audio_32k o;
     ssl_content := ssl_content o; _initialized := _initialized o |}.
Definition set_audio_32k (v : list f32) (o : object) : object :=
  {| text := text o; phonemes_seq := phonemes_seq o; text_bert := text_bert o;
     language := language o; audio_32k := Some v;
     ssl_content := ssl_content o; _initialized := _initialized o |}.
Definition set_ssl_content (v : ndarray) (o : object) : object :=
  {| text := text o; phonemes_seq := phonemes_seq o; text_bert := text_bert o;
     language := language o; audio_32k := audio_32k o;
     ssl_content := Some v; _initialized := _initialized o |}.
Definition set_initialized (v : bool) (o : object) : object :=
  {| text := text o; phonemes_seq := phonemes_seq o; text_bert := text_bert o;
     language := language o; audio_32k := audio_32k o;
     ssl_content := ssl_content o; _initialized := Some v |}.

(** A call to a collaborator, as recorded in the state. *)
Inductive call :=
| JapaneseToPhones (text : str)
| ChineseToPhones (text : str)
| BertFeatures (text : str)
| LoadAudio (path : str)
| Resample
| LoadCnHubert
| CnHubertRun.

(** The part of the process the class touches: the objects by address,
    the class attribute [_prompt_cache], whether
    [model_manager.cn_hubert] is set, and the calls made so far. *)
Record state := {
  heap : gmap nat object;
  next_addr : nat;
  _prompt_cache : LRUCacheDict.t nat;
  cn_hubert : bool;
  calls : list call
}.

Definition with_heap (h : gmap nat object) (s : state) : state :=
  {| heap := h; next_addr := next_addr s; _prompt_cache := _prompt_cache s;
     cn_hubert := cn_hubert s; calls := calls s |}.
Definition with_cache (c : LRUCacheDict.t nat) (s : state) : state :=
  {| heap := heap s; next_addr := next_addr s; _prompt_cache := c;
     cn_hubert := cn_hubert s; calls := calls s |}.
Definition with_call (e : call) (s : state) : state :=
  {| heap := heap s; next_addr := next_addr s; _prompt_cache := _prompt_cache s;
     cn_hubert := cn_hubert s; calls := calls s ++ [e] |}.
Definition with_cn_hubert (b : bool) (s : state) : state :=
  {| heap := heap s; next_addr := next_addr s; _prompt_cache := _prompt_cache s;
     cn_hubert := b; calls := calls s |}.

(** A computation that reads and writes the state and may raise; the state
    reached when it raises is kept. *)
Definition M (A : Type) : Type := state -> result A * state.

#[global] Instance M_ret : MRet M := fun A a s => (Ok a, s).
#[global] Instance M_bind : MBind M := fun A B f m s =>
  match m s with
  | (Ok a, s') => f a s'
  | (Raise e, s') => (Raise e, s')
  end.

(** The object at an address (an address never allocated reads as a bare
    object). *)
Definition obj (self : nat) (s : state) : object := default bare (heap s !! self).

Definition read (self : nat) : M object := fun s => (Ok (obj self s), s).

(** The state in which the object at [self] is [o]. *)
Definition put (self : nat) (o : object) (s : state) : state :=
  with_heap (<[self := o]> (heap s)) s.

(** [self.attr = v] *)
Definition assign (self : nat) (upd : object -> object) : M unit :=
  fun s => (Ok tt, put self (upd (obj self s)) s).

(** A collaborator call: recorded, then its outcome. *)
Definition invoke {A} (e : call) (r : result A) : M A :=
  fun s => (r, with_call e s).

Definition lift {A} (r : result A) : M A := fun s => (r, s).

(** [super().__new__(cls)] *)
Definition allocate : M nat := fun s =>
  (Ok (next_addr s),
   {| heap := <[next_addr s := bare]> (heap s); next_addr := S (next_addr s);
      _prompt_cache := _prompt_cache s; cn_hubert := cn_hubert s;
      calls := calls s |}).

(** [prompt_wav in cls._prompt_cache] *)
Definition cache_contains (k : str) : M bool := fun s =>
  (Ok (LRUCacheDict.contains k (_prompt_cache s)), s).

(** [cls._prompt_cache[prompt_wav]] *)
Definition cache_getitem (k : str) : M nat := fun s =>
  match LRUCacheDict.getitem k (_prompt_cache s) with
  | Some (v, c) => (Ok v, with_cache c s)
  | None => (Raise KeyError, s)
  end.

(** [cls._prompt_cache[prompt_wav] = instance] *)
Definition cache_setitem (k : str) (v : nat) : M unit := fun s =>
  (Ok tt, with_cache (LRUCacheDict.setitem k v (_prompt_cache s)) s).

(** [a.shape[1]] of an array of shape (1, n) *)
Definition shape_1 (a : list (list Z)) : nat :=
  match a with row :: _ => length row | [] => 0%nat end.

Section WithExternals.
Variable E : Externals.

(** The tail of [_extract_bert_features]: cut or pad with zero rows to
    [target_len] rows. The rows of the model are taken to have
    [BERT_FEATURE_DIM] entries, as the source notes of its output, so that
    the concatenation with the padding is defined. *)
Definition fit_rows (target_len : nat) (features : matrix) : matrix :=
  if (target_len <=? length features)%nat then take target_len features
  else features ++ replicate (target_len - length features)
                             (replicate (BERT_FEATURE_DIM E) 0%Z).

Definition _extract_bert_features (self : nat) (text : str) : M matrix :=
  features ← invoke (BertFeatures text) (bert_last_hidden_state E text);
  o ← read self;
  match phonemes_seq o with
  | Some (Some a) => mret (fit_rows (shape_1 a) features)
  | _ => lift (Raise AttributeError)
  end.

(** What [set_text] derives from a text, as values: the phoneme ids, the
    semantic features for [n] phonemes, and the collaborators consulted. *)
Definition phones_of (language prompt_text : str) : result (list Z) :=
  if str_eqb language (u "zh") then ChineseG2P.chinese_to_phones E prompt_text
  else JapaneseG2P.japanese_to_phones E prompt_text.

Definition features_of (language prompt_text : str) (n : nat) : result matrix :=
  if str_eqb language (u "zh")
  then fit_rows n <$> bert_last_hidden_state E prompt_text
  else Ok (replicate n (replicate (BERT_FEATURE_DIM E) 0%Z)).

Definition phones_call (language prompt_text : str) : call :=
  if str_eqb language (u "zh") then ChineseToPhones prompt_text
  else JapaneseToPhones prompt_text.

Definition features_calls (language prompt_text : str) : list call :=
  if str_eqb language (u "zh") then [BertFeatures prompt_text] else [].

(** The object after [set_text] has assigned [text] and [language]. *)
Definition retexted (prompt_text language : str) (o : object) : object :=
  set_language language (set_text_attr prompt_text o).

(** The object after [set_text] has run to its end. *)
Definition updated (prompt_text language : str) (ids : list Z) (features : matrix)
    (o : object) : object :=
  set_text_bert (Some features)
    (set_phonemes_seq (Some [ids]) (retexted prompt_text language o)).

Definition set_text (self : nat) (prompt_text language : str) : M unit :=
  assign self (set_text_attr prompt_text);;
  assign self (set_language language);;
  if str_eqb language (u "zh") then
    ids ← invoke (ChineseToPhones prompt_text)
                 (ChineseG2P.chinese_to_phones E prompt_text);
    assign self (set_phonemes_seq (Some [ids]));;
    features ← _extract_bert_features self prompt_text;
    assign self (set_text_bert (Some features))
  else
    ids ← invoke (JapaneseToPhones prompt_text)
                 (JapaneseG2P.japanese_to_phones E prompt_text);
    assign self (set_phonemes_seq (Some [ids]));;
    assign self (set_text_bert
                   (Some (replicate (length ids)
                                    (replicate (BERT_FEATURE_DIM E) 0%Z)))).

Definition __new__ (prompt_wav prompt_text language : str) : M nat :=
  present ← cache_contains prompt_wav;
  if (present : bool) then
    instance ← cache_getitem prompt_wav;
    o ← read instance;
    match text o with
    | None => lift (Raise AttributeError)
    | Some t =>
        (if negb (str_eqb t prompt_text)
            || negb (bool_decide (ReferenceAudio.language o = Some language))
         then set_text instance prompt_text language
         else mret tt);;
        mret instance
    end
  else
    instance ← allocate;
    cache_setitem prompt_wav instance;;
    mret instance.

(** Modelled from the spec: [model_manager] of [ModelManager.py]; the
    audio encoder is loaded lazily, once per process, and reused. *)
Definition ensure_cn_hubert : M unit := fun s =>
  if cn_hubert s then (Ok tt, s)
  else match load_cn_hubert E with
       | Ok _ => (Ok tt, with_cn_hubert true (with_call LoadCnHubert s))
       | Raise e => (Raise e, with_call LoadCnHubert s)
       end.

(** The second half of [__init__], headed "audio" in the source: load the
    recording, resample it, encode it, and mark the object initialized. *)
Definition init_audio (self : nat) (prompt_wav : str) : M unit :=
  audio ← invoke (LoadAudio prompt_wav) (load_audio E prompt_wav);
  assign self (set_audio_32k audio);;
  audio_16k ← invoke Resample (soxr_resample E audio);
  ensure_cn_hubert;;
  outputs ← invoke CnHubertRun (cn_hubert_run E [audio_16k]);
  match outputs with
  | [] => lift (Raise IndexError)
  | out :: _ =>
      assign self (set_ssl_content out);;
      assign self (set_initialized true)
  end.

Definition __init__ (self : nat) (prompt_wav prompt_text language : str) : M unit :=
  o ← read self;
  match _initialized o with
  | Some _ => mret tt
  | None =>
      assign self (set_text_attr prompt_text);;
      assign self (set_phonemes_seq None);;
      assign self (set_text_bert None);;
      assign self (set_language language);;
      set_text self prompt_text language;;
      init_audio self prompt_wav
  end.

(** The state after [cls._prompt_cache[k]] has found [l]: [k] is the most
    recently used key. *)
Definition refreshed (k : str) (l : nat) (s : state) : state :=
  with_cache {| LRUCacheDict.capacity := LRUCacheDict.capacity (_prompt_cache s);
                LRUCacheDict.items :=
                  LRUCacheDict.without k (LRUCacheDict.items (_prompt_cache s))
                  ++ [(k, l)] |} s.

(** The state after [__new__] has created the object of an absent key. *)
Definition created (k : str) (s : state) : state :=
  {| heap := <[next_addr s := bare]> (heap s); next_addr := S (next_addr s);
     _prompt_cache := LRUCacheDict.setitem k (next_addr s) (_prompt_cache s);
     cn_hubert := cn_hubert s; calls := calls s |}.

(** The entry of [k] is the object [l], most recently used, initialized,
    and holds this text and language. *)
Definition settled (k prompt_text language : str) (l : nat) (s : state) : Prop :=
  (exists older, LRUCacheDict.items (_prompt_cache s) = older ++ [(k, l)]
                 /\ k ∉ map fst older)
  /\ text (obj l s) = Some prompt_text
  /\ ReferenceAudio.language (obj l s) = Some language
  /\ is_Some (_initialized (obj l s)).

(** The call [ReferenceAudio(prompt_wav, prompt_text, language)]: the
    object [__new__] returns is an instance of the class, so [__init__]
    runs on it and the object is the value of the call. *)
Definition request (prompt_wav prompt_text language : str) : M nat :=
  instance ← __new__ prompt_wav prompt_text language;
  __init__ instance prompt_wav prompt_text language;;
  mret instance.

Definition clear_cache : M unit := fun s =>
  (Ok tt, with_cache (LRUCacheDict.clear (_prompt_cache s)) s).

End WithExternals.
End ReferenceAudio.

(* ===================================================================== *)
(** * The segmentation of Japanese text, in the specification's words      *)
(* ===================================================================== *)

Module JapaneseSpans.
Import JapaneseG2P.

(** A span of the normalized text: a run of Japanese-script characters, or
    one character of anything else. *)
Inductive span :=
| Content (s : str)
| Mark (c : N).

Definition span_text (sp : span) : str :=
  match sp with
  | Content s => s
  | Mark c => [c]
  end.

(** The content read so far, as a span, if there is any. *)
Definition flush (cur : str) : list span :=
  if truthy cur then [Content cur] else [].

(** One pass over the text: content characters extend the current span,
    any other character closes it and is a span of its own. *)
Fixpoint spans (is_content : N -> bool) (cur s : str) : list span :=
  match s with
  | [] => flush cur
  | c :: r =>
      if is_content c then spans is_content (cur ++ [c]) r
      else flush cur ++ Mark c :: spans is_content [] r
  end.

Section WithExternals.
Variable E : Externals.

(** A content span is read through the labels of the linguistic
    front-end, without the first and the last symbol of the derivation; a
    mark contributes itself, unless it is white space. *)
Definition span_phones (sp : span) : result (list str) :=
  match sp with
  | Content s => slice_1_m1 <$> _pyopenjtalk_g2p_prosody E s
  | Mark c => Ok (if truthy (strip [c]) then [strip [c]] else [])
  end.

(** A span is well classified: a content span is a non-empty run of
    Japanese-script characters, a mark is a character outside them. *)
Definition span_classified (sp : span) : Prop :=
  match sp with
  | Content s => s <> [] /\ forallb (is_japanese_char E) s = true
  | Mark c => is_japanese_char E c = false
  end.

Definition spans_g2p (text : str) : result (list str) :=
  parts ← mapM_result span_phones
            (spans (is_japanese_char E) [] (_text_normalize E text));
  Ok (map _post_replace_phoneme (concat parts)).

End WithExternals.
End JapaneseSpans.

(* ===================================================================== *)
(** * Shapes of results                                                    *)
(* ===================================================================== *)

Module Shapes.

(** The chunks after the first one are long enough. *)
Definition tail_long (chunks : list str) : Prop :=
  Forall (fun c => (Split.MIN_SENTENCE_LENGTH <= Split.get_valid_text_length c)%nat)
         (drop 1 chunks).

(** A string without white space at either end. *)
Definition trimmed (s : str) : Prop := lstrip s = s /\ lstrip (rev s) = rev s.

Definition no_terminator (s : str) : bool :=
  forallb (fun c => negb (Split.is_terminator c)) s.

(** A piece that ends with a sentence terminator, its only one. *)
Definition terminated (piece : str) : Prop :=
  exists body c, piece = body ++ [c] /\ Split.is_terminator c = true
                 /\ no_terminator body = true.

(** No character of the repeatable punctuation is followed by itself. *)
Fixpoint no_repeat (s : str) : bool :=
  match s with
  | c :: r =>
      match r with
      | d :: _ =>
          negb (JapaneseG2P.is_repeatable_punctuation c && (c =? d)) && no_repeat r
      | [] => true
      end
  | [] => true
  end.

(** The keys of the dictionary of [_post_replace_phoneme]. *)
Definition REPLACED : list str :=
  [ [0xFF1A]; [0xFF1B]; [0xFF0C]; [0x3002]; [0xFF01]; [0xFF1F]; [0x0A];
    [0xB7]; [0x3001]; u "..." ].

(** Pieces and runs in turn: a run is a non-empty string of characters of
    the class, a piece has no character of the class. *)
Fixpoint alternating (cls : N -> bool) (is_run : bool) (l : list str) : Prop :=
  match l with
  | [] => True
  | p :: rest =>
      (if is_run then p <> [] /\ forallb cls p = true
       else forallb (fun c => negb (cls c)) p = true)
      /\ alternating cls (negb is_run) rest
  end.

(** A cache with one entry per key and no more entries than its
    capacity. *)
Definition cache_ok {V} (c : LRUCacheDict.t V) : Prop :=
  NoDup (LRUCacheDict.keys c)
  /\ (length (LRUCacheDict.items c) <= LRUCacheDict.capacity c)%nat.

(** What a computation on the object [self] leaves alone: the cache, the
    other objects, and, once the audio encoder is loaded, the encoder: it
    stays loaded and is not loaded again. *)
Definition confined (self : nat) (s s' : ReferenceAudio.state) : Prop :=
  ReferenceAudio._prompt_cache s' = ReferenceAudio._prompt_cache s
  /\ (forall a, a <> self -> ReferenceAudio.obj a s' = ReferenceAudio.obj a s)
  /\ (ReferenceAudio.cn_hubert s = true ->
      ReferenceAudio.cn_hubert s' = true
      /\ exists more, ReferenceAudio.calls s' = ReferenceAudio.calls s ++ more /\ (ReferenceAudio.LoadCnHubert ∉ more)).

End Shapes.

(* ===================================================================== *)
(** * Concrete collaborators for worked examples                           *)
(* ===================================================================== *)

Module Fixtures.

(** A symbol table with the unknown symbol and a few phones. *)
Definition symbols : gmap str Z :=
  list_to_map [(u "UNK", 0%Z); (u "a", 1%Z); (u "k", 2%Z); (u "h", 3%Z);
               (u "an4", 4%Z); (u "]", 5%Z); (u "[", 6%Z); (u "#", 7%Z)].

(** Full-context labels of a two-phone utterance between two silences. *)
Definition label_sil_first : str := u "xx^xx-sil+k=a/A:xx+xx+xx/B:xx!0_xx/F:xx_xx".
Definition label_k : str := u "xx^sil-k+a=sil/A:0+1+1/B:xx!0_xx/F:1_1".
Definition label_a : str := u "sil^k-a+sil=xx/A:0+1+1/B:xx!0_xx/F:1_1".
Definition label_sil_last : str := u "k^a-sil+xx=xx/A:xx+xx+xx/B:xx!0_xx/F:xx_xx".
Definition labels : list str := [label_sil_first; label_k; label_a; label_sil_last].

(** A label with accent features and no [/F:] field, and its successor. *)
Definition label_without_F : str := u "xx^xx-k+a=xx/A:0+1+2/B:xx".
Definition label_after : str := u "xx^k-a+xx=xx/A:1+2+1/B:xx".

(** Externals over ASCII text: the front-end answers every segment with
    [front_end], the romanizer every text with [romanized], the audio
    loader every path with [audio]. *)
Definition externals (front_end : result (list str))
    (romanized : result (list (list str)))
    (audio : result (list f32)) : Externals :=
  {| unicode_digit := fun _ => None;
     unicode_lower := fun s => map ascii_lower s;
     make_label := fun _ => front_end;
     openjtalk_g2p := fun _ => Raise (CollaboratorFailure PyOpenJTalk);
     pinyin := fun _ => romanized;
     get_initials := fun s => take 1 s;
     get_finals := fun s => drop 1 s;
     symbol_to_id_v2 := symbols;
     BERT_FEATURE_DIM := 2;
     bert_last_hidden_state := fun _ => Ok [[1%Z; 1%Z]];
     load_audio := fun _ => audio;
     soxr_resample := fun a => Ok a;
     load_cn_hubert := Ok tt;
     cn_hubert_run := fun a => Ok [NDArray [1%nat] (concat a)] |}.

(** Every collaborator answers. *)
Definition working : Externals :=
  externals (Ok labels) (Ok [[u "han4"]]) (Ok [7%Z; 8%Z]).

(** The Japanese front-end is unavailable. *)
Definition no_front_end : Externals :=
  externals (Raise (CollaboratorFailure PyOpenJTalk)) (Ok [[u "han4"]])
            (Ok [7%Z; 8%Z]).

(** The audio file cannot be read. *)
Definition no_audio : Externals :=
  externals (Ok labels) (Ok [[u "han4"]])
            (Raise (CollaboratorFailure AudioLoader)).

(** The working collaborators with a symbol table that lacks ["UNK"]. *)
Definition bare_table : Externals :=
  {| unicode_digit := unicode_digit working;
     unicode_lower := unicode_lower working;
     make_label := make_label working;
     openjtalk_g2p := openjtalk_g2p working;
     pinyin := pinyin working;
     get_initials := get_initials working;
     get_finals := get_finals working;
     symbol_to_id_v2 := {[ u "a" := 1%Z ]};
     BERT_FEATURE_DIM := BERT_FEATURE_DIM working;
     bert_last_hidden_state := bert_last_hidden_state working;
     load_audio := load_audio working;
     soxr_resample := soxr_resample working;
     load_cn_hubert := load_cn_hubert working;
     cn_hubert_run := cn_hubert_run working |}.

(** The romanizer is unavailable. *)
Definition no_romanizer : Externals :=
  externals (Ok labels) (Raise (CollaboratorFailure PyPinyin)) (Ok [7%Z; 8%Z]).

(** The working collaborators with a text-embedding model that fails. *)
Definition no_bert : Externals :=
  {| unicode_digit := unicode_digit working;
     unicode_lower := unicode_lower working;
     make_label := make_label working;
     openjtalk_g2p := openjtalk_g2p working;
     pinyin := pinyin working;
     get_initials := get_initials working;
     get_finals := get_finals working;
     symbol_to_id_v2 := symbol_to_id_v2 working;
     BERT_FEATURE_DIM := BERT_FEATURE_DIM working;
     bert_last_hidden_state := fun _ => Raise (CollaboratorFailure BertModel);
     load_audio := load_audio working;
     soxr_resample := soxr_resample working;
     load_cn_hubert := load_cn_hubert working;
     cn_hubert_run := cn_hubert_run working |}.



(** The path of a reference recording. *)
Definition wav : str := u "ref.wav".

(** A process that has requested nothing yet; the cache holds ten entries. *)
Definition fresh : ReferenceAudio.state :=
  {| ReferenceAudio.heap := ∅; ReferenceAudio.next_addr := 0;
     ReferenceAudio._prompt_cache := LRUCacheDict.new 10;
     ReferenceAudio.cn_hubert := false; ReferenceAudio.calls := [] |}.

(** The entry of [wav] with the transcript ["ka"], fully initialized. *)
Definition entry_ka : ReferenceAudio.object :=
  {| ReferenceAudio.text := Some (u "ka");
     ReferenceAudio.phonemes_seq := Some (Some [[2%Z; 1%Z]]);
     ReferenceAudio.text_bert := Some (Some [[0%Z; 0%Z]; [0%Z; 0%Z]]);
     ReferenceAudio.language := Some (u "ja");
     ReferenceAudio.audio_32k := Some [7%Z; 8%Z];
     ReferenceAudio.ssl_content := Some (NDArray [1%nat] [7%Z; 8%Z]);
     ReferenceAudio._initialized := Some true |}.

(** The process after [wav] was requested with ["ka"]. *)
Definition cached : ReferenceAudio.state :=
  {| ReferenceAudio.heap := {[ 0%nat := entry_ka ]};
     ReferenceAudio.next_addr := 1;
     ReferenceAudio._prompt_cache :=
       {| LRUCacheDict.capacity := 10; LRUCacheDict.items := [(wav, 0%nat)] |};
     ReferenceAudio.cn_hubert := true;
     ReferenceAudio.calls :=
       [ReferenceAudio.JapaneseToPhones (u "ka"); ReferenceAudio.LoadAudio wav;
        ReferenceAudio.Resample; ReferenceAudio.LoadCnHubert;
        ReferenceAudio.CnHubertRun] |}.

End Fixtures.

(* ===================================================================== *)
(** * Properties of the Python built-ins                                   *)
(* ===================================================================== *)

Module PyFacts.

Lemma lstrip_nil_iff (s : str) : lstrip s = [] <-> forallb isspace s = true.
Proof.
  induction s as [|c r IH]; simpl; [tauto|].
  destruct (isspace c); simpl; [exact IH|]. split; discriminate.
Qed.

Lemma lstrip_head (s : str) :
  match lstrip s with
  | [] => True
  | c :: _ => isspace c = false
  end.
Proof.
  induction s as [|c r IH]; simpl; [exact I|].
  destruct (isspace c) eqn:Hc; [exact IH | exact Hc].
Qed.

Lemma forallb_rev_space (s : str) :
  forallb isspace (rev s) = forallb isspace s.
Proof.
  induction s as [|c r IH]; [reflexivity|].
  simpl. rewrite forallb_app, IH. simpl.
  destruct (forallb isspace r), (isspace c); reflexivity.
Qed.

(** A string strips to the empty string exactly when it is blank. *)
Lemma strip_nil_iff (s : str) : strip s = [] <-> forallb isspace s = true.
Proof.
  unfold strip, rstrip. split.
  - intros H.
    assert (Hl : lstrip (rev (lstrip s)) = []).
    { destruct (lstrip (rev (lstrip s))) as [|x l]; [reflexivity|].
      simpl in H. destruct (rev l); discriminate. }
    apply lstrip_nil_iff in Hl. rewrite forallb_rev_space in Hl.
    pose proof (lstrip_head s) as Hh.
    destruct (lstrip s) as [|c l] eqn:Hs.
    + apply lstrip_nil_iff. exact Hs.
    + simpl in Hl. rewrite Hh in Hl. discriminate.
  - intros H. apply lstrip_nil_iff in H. rewrite H. reflexivity.
Qed.

Lemma truthy_false_iff {A} (l : list A) : truthy l = false <-> l = [].
Proof. destruct l; simpl; split; congruence. Qed.

Lemma truthy_true_iff {A} (l : list A) : truthy l = true <-> l <> [].
Proof. destruct l; simpl; split; congruence. Qed.

Lemma str_eqb_eq (a b : str) : str_eqb a b = true <-> a = b.
Proof. unfold str_eqb. apply bool_decide_eq_true. Qed.

Lemma str_eqb_neq (a b : str) : str_eqb a b = false <-> a <> b.
Proof. unfold str_eqb. apply bool_decide_eq_false. Qed.

Lemma take_while_all (p : N -> bool) (s : str) :
  forallb p (take_while p s) = true.
Proof.
  induction s as [|c r IH]; [reflexivity|].
  simpl. destruct (p c) eqn:Hc; [simpl; rewrite Hc; exact IH | reflexivity].
Qed.

End PyFacts.

(* ===================================================================== *)
(** * Sentence chunking                                                    *)
(* ===================================================================== *)

Module SplitFacts.
Import Split PyFacts.

(** The regular-expression split cuts the text and loses nothing. *)
Lemma re_split_after_concat (cur s : str) :
  concat (re_split_after cur s) = cur ++ s.
Proof.
  revert cur. induction s as [|c r IH]; intros cur; simpl.
  - rewrite !app_nil_r. reflexivity.
  - destruct (is_terminator c); simpl; rewrite IH.
    + rewrite <- app_assoc. reflexivity.
    + rewrite <- app_assoc. reflexivity.
Qed.

Lemma strip_nonblank_concat (pieces : list str) :
  concat (strip_nonblank pieces) = concat (map strip pieces).
Proof.
  unfold strip_nonblank.
  induction pieces as [|p ps IH]; [reflexivity|].
  rewrite filter_cons. destruct (decide (truthy (strip p) = true)) as [Hp|Hp].
  - simpl. rewrite IH. reflexivity.
  - simpl. rewrite IH.
    apply not_true_is_false, truthy_false_iff in Hp. rewrite Hp. reflexivity.
Qed.

Lemma strip_nonblank_nonempty (pieces : list str) :
  Forall (fun c => c <> []) (strip_nonblank pieces).
Proof.
  unfold strip_nonblank. apply Forall_forall. intros c Hc.
  apply list_elem_of_fmap in Hc as (p & -> & Hp).
  apply list_elem_of_filter in Hp as [Hp _].
  apply truthy_true_iff. exact Hp.
Qed.

Lemma last_removelast {A} (l : list A) (x : A) :
  last l = Some x -> removelast l ++ [x] = l.
Proof.
  intros H. destruct (decide (l = [])) as [->|Hne]; [discriminate|].
  rewrite (app_removelast_last x Hne) at 2.
  f_equal. f_equal.
  clear Hne. induction l as [|a l IH]; [discriminate|].
  destruct l as [|b l]; simpl in *; [congruence|]. apply IH. exact H.
Qed.

(** Merging appends a chunk to its predecessor: the text read through the
    chunks is the same. *)
Lemma merge_step_concat (acc : list str) (sentence : str) :
  concat (merge_step acc sentence) = concat acc ++ sentence.
Proof.
  unfold merge_step.
  destruct (truthy acc && _)%bool eqn:Hc.
  - destruct (last acc) as [prev|] eqn:Hl.
    + rewrite <- (last_removelast acc prev Hl) at 2.
      rewrite !concat_app. simpl. rewrite !app_nil_r, app_assoc. reflexivity.
    + destruct acc; [discriminate|].
      apply last_None in Hl. discriminate.
  - rewrite concat_app. simpl. rewrite app_nil_r. reflexivity.
Qed.

Lemma merge_step_nonempty (acc : list str) (sentence : str) :
  Forall (fun c => c <> []) acc -> sentence <> [] ->
  Forall (fun c => c <> []) (merge_step acc sentence).
Proof.
  intros Hacc Hs. unfold merge_step.
  destruct (truthy acc && _)%bool.
  - destruct (last acc) as [prev|] eqn:Hl; [|exact Hacc].
    rewrite <- (last_removelast acc prev Hl) in Hacc.
    apply Forall_app in Hacc as [H1 H2].
    apply Forall_app. split; [exact H1|].
    constructor; [|constructor].
    intros Heq. apply app_eq_nil in Heq as [_ Heq]. contradiction.
  - apply Forall_app. split; [exact Hacc|]. constructor; [exact Hs | constructor].
Qed.

Lemma fold_merge_concat (l acc : list str) :
  concat (fold_left merge_step l acc) = concat acc ++ concat l.
Proof.
  revert acc. induction l as [|s l IH]; intros acc; simpl.
  - rewrite app_nil_r. reflexivity.
  - rewrite IH, merge_step_concat, <- app_assoc. reflexivity.
Qed.

Lemma fold_merge_nonempty (l acc : list str) :
  Forall (fun c => c <> []) acc -> Forall (fun c => c <> []) l ->
  Forall (fun c => c <> []) (fold_left merge_step l acc).
Proof.
  revert acc. induction l as [|s l IH]; intros acc Hacc Hl; simpl; [exact Hacc|].
  inversion Hl; subst. apply IH; [|assumption].
  apply merge_step_nonempty; assumption.
Qed.

(** A text all of whose pieces are blank is blank. *)
Lemma blank_pieces_blank_text (pieces : list str) :
  strip_nonblank pieces = [] -> strip (concat pieces) = [].
Proof.
  intros H. apply strip_nil_iff.
  induction pieces as [|p ps IH]; [reflexivity|].
  unfold strip_nonblank in H. rewrite filter_cons in H.
  destruct (decide (truthy (strip p) = true)) as [Hp|Hp]; [discriminate|].
  simpl. rewrite forallb_app.
  apply not_true_is_false, truthy_false_iff, strip_nil_iff in Hp.
  rewrite Hp. simpl. apply IH. exact H.
Qed.

Lemma concat_split_chinese_text (long_text : str) :
  concat (split_chinese_text long_text)
    = concat (map strip (re_split_after [] long_text)).
Proof.
  unfold split_chinese_text.
  destruct long_text as [|c r]; [reflexivity|].
  cbn [truthy negb].
  destruct (strip_nonblank (re_split_after [] (c :: r))) as [|s0 raw] eqn:Hraw.
  - cbn [truthy negb].
    pose proof (blank_pieces_blank_text _ Hraw) as Hb.
    rewrite re_split_after_concat in Hb. simpl in Hb. rewrite Hb.
    rewrite <- strip_nonblank_concat, Hraw. reflexivity.
  - cbn [truthy negb].
    rewrite fold_merge_concat, <- strip_nonblank_concat, Hraw. reflexivity.
Qed.

Lemma split_chinese_text_nonempty (long_text : str) :
  Forall (fun chunk => chunk <> []) (split_chinese_text long_text).
Proof.
  unfold split_chinese_text.
  destruct long_text as [|c r]; [constructor|].
  cbn [truthy negb].
  pose proof (strip_nonblank_nonempty (re_split_after [] (c :: r))) as Hne.
  destruct (strip_nonblank (re_split_after [] (c :: r))) as [|s0 raw] eqn:Hraw.
  - cbn [truthy negb]. destruct (truthy (strip (c :: r))); repeat constructor.
    discriminate.
  - cbn [truthy negb]. apply fold_merge_nonempty; [constructor | exact Hne].
Qed.

(** A text whose pieces carry no white space at their ends is read back
    from its chunks unchanged. *)
Lemma split_chinese_text_lossless_trimmed (long_text : str) :
  Forall (fun p => strip p = p) (re_split_after [] long_text) ->
  concat (split_chinese_text long_text) = long_text.
Proof.
  intros H. rewrite concat_split_chinese_text.
  rewrite <- (re_split_after_concat [] long_text) at 2. simpl.
  induction H as [|p ps Hp _ IH]; [reflexivity|].
  simpl. rewrite Hp, IH. reflexivity.
Qed.

(** C6, as the code has it: read one after the other, the chunks are the
    pieces between the sentence terminators, each with the white space at
    its two ends removed; the pieces themselves, untrimmed, make up the
    text; and no chunk is empty. *)
Theorem split_chinese_text_concat (long_text : str) :
  concat (split_chinese_text long_text)
    = concat (map strip (re_split_after [] long_text))
  /\ concat (re_split_after [] long_text) = long_text
  /\ Forall (fun chunk => chunk <> []) (split_chinese_text long_text).
Proof.
  split; [apply concat_split_chinese_text|split].
  - apply re_split_after_concat.
  - apply split_chinese_text_nonempty.
Qed.

(** C6, as the specification words it, fails: a text that starts with a
    space is not the concatenation of its chunks. *)
Lemma split_chinese_text_not_lossless :
  concat (split_chinese_text (u " A")) <> u " A".
Proof. vm_compute. discriminate. Qed.

End SplitFacts.

(* ===================================================================== *)
(** * Encoding symbols as ids                                              *)
(* ===================================================================== *)

Module EncoderFacts.
Import JapaneseG2P.

Section WithExternals.
Variable E : Externals.
Variable unk : Z.
Hypothesis unk_in_table : symbol_to_id_v2 E !! u "UNK" = Some unk.

Lemma phones_to_ids_map (phones : list str) :
  phones_to_ids E phones = Ok (map (id_of E unk) phones).
Proof using unk_in_table.
  unfold phones_to_ids.
  induction phones as [|ph phones IH]; [reflexivity|].
  cbn [map mapM_result]. rewrite IH.
  assert (Hid : id_of E unk ph = default unk (symbol_to_id_v2 E !! ph)) by reflexivity.
  destruct (symbol_to_id_v2 E !! ph) as [i|] eqn:Hph.
  - rewrite bool_decide_eq_true_2 by eauto.
    cbv beta iota. rewrite Hph, Hid. reflexivity.
  - rewrite bool_decide_eq_false_2 by apply is_Some_None.
    cbv beta iota. rewrite unk_in_table, Hid. reflexivity.
Qed.

(** C9: with the unknown symbol in the vocabulary, encoding returns, never
    raises, and maps every symbol to its id or, for a symbol outside the
    vocabulary, to the unknown id; the ids are as many as the symbols. This
    is the encoding step of both [japanese_to_phones] and
    [chinese_to_phones]. *)
Theorem phones_to_ids_total (phones : list str) :
  phones_to_ids E phones = Ok (map (id_of E unk) phones)
  /\ length (map (id_of E unk) phones) = length phones
  /\ (forall i ph, phones !! i = Some ph ->
        map (id_of E unk) phones !! i
          = Some (match symbol_to_id_v2 E !! ph with
                  | Some id => id
                  | None => unk
                  end))
  /\ (forall text, g2p E text true = Ok phones ->
        japanese_to_phones E text = Ok (map (id_of E unk) phones))
  /\ (forall text, ChineseG2P.g2p E text = Ok phones ->
        ChineseG2P.chinese_to_phones E text = Ok (map (id_of E unk) phones)).
Proof using unk_in_table.
  split; [apply phones_to_ids_map|].
  split; [apply length_map|].
  split; [|split].
  - intros i ph Hi. rewrite list_lookup_fmap, Hi. reflexivity.
  - intros text Hg. unfold japanese_to_phones. rewrite Hg. cbn.
    apply phones_to_ids_map.
  - intros text Hg. unfold ChineseG2P.chinese_to_phones. rewrite Hg. cbn.
    apply phones_to_ids_map.
Qed.

End WithExternals.

(** The theorem at a concrete table: [zz] is not a symbol of it. *)
Lemma phones_to_ids_total_witness :
  symbol_to_id_v2 Fixtures.working !! u "UNK" = Some 0%Z
  /\ phones_to_ids Fixtures.working [u "k"; u "zz"; u "a"] = Ok [2; 0; 1]%Z.
Proof.
  split; [reflexivity|].
  apply (phones_to_ids_total Fixtures.working 0%Z eq_refl [u "k"; u "zz"; u "a"]).
Defined.

End EncoderFacts.

(* ===================================================================== *)
(** * Positional features of a label                                       *)
(* ===================================================================== *)

Module FeatureFacts.
Import PyUnicode JapaneseG2P PyFacts.

Lemma match_here_group (p : Re.pattern) (s g : str) :
  Re.match_here p s = Some g ->
  forallb (Re.pat_class p) g = true /\ (Re.pat_plus p = true -> g <> []).
Proof.
  unfold Re.match_here.
  destruct (strip_prefix (Re.pat_prefix p) s) as [rest|]; [|discriminate].
  destruct (drop _ rest) as [|t tl]; [discriminate|].
  destruct ((t =? Re.pat_term p) && _)%bool eqn:Hc; [|discriminate].
  intros [= <-]. split; [apply take_while_all|].
  intros Hplus. rewrite Hplus in Hc.
  apply andb_true_iff in Hc as [_ Hc]. simpl in Hc.
  apply truthy_true_iff. exact Hc.
Qed.

(** What [re.search] captures is a run of the pattern's class. *)
Lemma search_group (p : Re.pattern) (s g : str) :
  Re.search p s = Some g ->
  forallb (Re.pat_class p) g = true /\ (Re.pat_plus p = true -> g <> []).
Proof.
  induction s as [|c r IH]; simpl.
  - destruct (Re.match_here p []) eqn:Hm; [|discriminate].
    intros [= <-]. eapply match_here_group. exact Hm.
  - destruct (Re.match_here p (c :: r)) eqn:Hm.
    + intros [= <-]. eapply match_here_group. exact Hm.
    + exact IH.
Qed.

Section WithExternals.
Variable E : Externals.

Lemma digits_value_nonneg (ds : str) : (0 <= digits_value E ds)%Z.
Proof.
  unfold digits_value.
  assert (H : forall acc, (0 <= acc)%Z ->
            (0 <= fold_left (fun acc c =>
                    (10 * acc + Z.of_N (default 0%N (digit_value E c)))%Z) ds acc)%Z).
  { induction ds as [|c r IH]; intros acc Hacc; simpl; [exact Hacc|].
    apply IH. lia. }
  apply H. lia.
Qed.

(** [int] reads every non-empty run of digits. *)
Lemma int_digits (g : str) :
  g <> [] -> forallb (is_digit E) g = true -> int E g = Ok (digits_value E g).
Proof.
  intros Hne Hd. destruct g as [|c ds]; [contradiction|].
  unfold int. destruct (N.eqb_spec c 0x2D) as [->|_].
  - simpl in Hd. discriminate.
  - rewrite Hd. reflexivity.
Qed.

(** A feature read with a digit pattern never raises: it is the sentinel
    -50 when the pattern is absent and a natural number otherwise. *)
Lemma digit_feature (p : Re.pattern) (s : str) :
  digit_pattern E p ->
  exists v, _numeric_feature_by_regex E p s = Ok v
            /\ (Re.search p s = None -> v = (-50)%Z)
            /\ (Re.search p s <> None -> (0 <= v)%Z).
Proof.
  intros [Hc Hp]. unfold _numeric_feature_by_regex.
  destruct (Re.search p s) as [g|] eqn:Hs.
  - apply search_group in Hs as [Hall Hne]. rewrite Hc in Hall.
    rewrite int_digits by auto.
    eexists. split; [reflexivity|]. split; [discriminate|].
    intros _. apply digits_value_nonneg.
  - eexists. split; [reflexivity|]. split; [reflexivity | congruence].
Qed.

(** Every feature is the sentinel -50 when its pattern is absent. *)
Lemma absent_feature (p : Re.pattern) (s : str) :
  Re.search p s = None -> _numeric_feature_by_regex E p s = Ok (-50)%Z.
Proof. unfold _numeric_feature_by_regex. intros ->. reflexivity. Qed.

Lemma digit_pattern_E3 : digit_pattern E (RE_E3 E).
Proof. split; reflexivity. Qed.
Lemma digit_pattern_A2 : digit_pattern E (RE_A2 E).
Proof. split; reflexivity. Qed.
Lemma digit_pattern_A3 : digit_pattern E (RE_A3 E).
Proof. split; reflexivity. Qed.
Lemma digit_pattern_F1 : digit_pattern E (RE_F1 E).
Proof. split; reflexivity. Qed.

End WithExternals.
End FeatureFacts.

(* ===================================================================== *)
(** * The label-based derivation                                           *)
(* ===================================================================== *)

Module ProsodyFacts.
Import PyUnicode JapaneseG2P PyFacts FeatureFacts.

Lemma slice_1_m1_inner {A} (first last : A) (inner : list A) :
  slice_1_m1 (first :: inner ++ [last]) = inner.
Proof.
  unfold slice_1_m1. cbn [length]. rewrite length_app. cbn [length].
  replace (S (length inner + 1) - 1)%nat with (S (length inner)) by lia.
  cbn [take drop]. rewrite take_app_length. reflexivity.
Qed.

Lemma slice_1_m1_short {A} (l : list A) :
  (length l <= 2)%nat -> slice_1_m1 l = [].
Proof.
  intros H. destruct l as [|a [|b [|c l]]]; try reflexivity.
  simpl in H. lia.
Qed.

Section WithExternals.
Variable E : Externals.

(** The phones of a stream are, label by label, what each turn of the loop
    appends. *)
Lemma prosody_loop_parts (len : nat) (labels : list str) :
  forall n phones,
  prosody_loop E len n labels = Ok phones ->
  exists parts,
    phones = concat parts /\ length parts = length labels
    /\ forall i lab, labels !! i = Some lab ->
         exists part, parts !! i = Some part
           /\ label_phones E len (n + i) lab (default [] (labels !! S i)) = Ok part.
Proof.
  induction labels as [|lab rest IH]; intros n phones H.
  - injection H as <-. exists []. split; [reflexivity|]. split; [reflexivity|].
    intros i lab Hi. discriminate.
  - cbn [prosody_loop] in H.
    destruct (label_phones E len n lab _) as [ph|e] eqn:Hph; [|discriminate].
    cbn in H.
    destruct (prosody_loop E len (S n) rest) as [phs|e] eqn:Hphs; [|discriminate].
    injection H as <-.
    destruct (IH _ _ Hphs) as (parts & -> & Hlen & Hparts).
    exists (ph :: parts). split; [reflexivity|]. split; [simpl; congruence|].
    intros [|i] l Hi.
    + injection Hi as <-. exists ph. split; [reflexivity|].
      rewrite Nat.add_0_r. rewrite <- Hph. f_equal. destruct rest; reflexivity.
    + destruct (Hparts i l Hi) as (part & Hp & Hl).
      exists part. split; [exact Hp|].
      rewrite <- Hl. f_equal. lia.
Qed.

(** What a silence label appends, by its position. *)
Lemma silence_label_phones (len n : nat) (lab lab_next : str) :
  label_phone E lab = Ok (u "sil") ->
  exists e3,
    _numeric_feature_by_regex E (RE_E3 E) lab = Ok e3
    /\ label_phones E len n lab lab_next
       = Ok (if (n =? 0)%nat then [u "^"]
             else if (n =? len - 1)%nat
                  then [if (e3 =? 1)%Z then u "?" else u "$"]
                  else []).
Proof.
  intros Hsil.
  destruct (digit_feature E (RE_E3 E) lab (digit_pattern_E3 E)) as (e3 & He3 & _).
  exists e3. split; [exact He3|].
  unfold label_phones. rewrite Hsil. cbn.
  destruct (n =? 0)%nat; [reflexivity|].
  destruct (n =? len - 1)%nat; [|reflexivity].
  rewrite He3. reflexivity.
Qed.

Lemma label_phones_returns (len n : nat) (lab lab_next : str) :
  label_well_formed E lab ->
  exists ph, label_phones E len n lab lab_next = Ok ph.
Proof.
  intros (p3 & Hp3 & Hcase).
  destruct (decide (p3 = u "sil")) as [->|Hsil].
  { destruct (silence_label_phones len n lab lab_next Hp3) as (e3 & _ & H).
    eexists. exact H. }
  unfold label_phones. rewrite Hp3. cbn [mbind result_bind].
  apply str_eqb_neq in Hsil. rewrite Hsil.
  destruct (str_eqb p3 (u "pau")) eqn:Hpau; [eexists; reflexivity|].
  apply str_eqb_neq in Hsil, Hpau.
  destruct Hcase as [?|[?|[a1 Ha1]]]; [contradiction..|].
  destruct (digit_feature E (RE_A2 E) lab (digit_pattern_A2 E)) as (a2 & Ha2 & _).
  destruct (digit_feature E (RE_A3 E) lab (digit_pattern_A3 E)) as (a3 & Ha3 & _).
  destruct (digit_feature E (RE_F1 E) lab (digit_pattern_F1 E)) as (f1 & Hf1 & _).
  destruct (digit_feature E (RE_A2 E) lab_next (digit_pattern_A2 E))
    as (a2n & Ha2n & _).
  rewrite Ha1, Ha2, Ha3, Hf1, Ha2n. eexists. reflexivity.
Qed.

(** On well-formed labels the derivation returns. *)
Lemma prosody_loop_returns (len : nat) (labels : list str) :
  Forall (label_well_formed E) labels ->
  forall n, exists phones, prosody_loop E len n labels = Ok phones.
Proof.
  induction 1 as [|lab rest Hlab _ IH]; intros n; [eexists; reflexivity|].
  cbn [prosody_loop].
  match goal with
  | |- context [label_phones E len n lab ?next] =>
      destruct (label_phones_returns len n lab next Hlab) as (ph & ->)
  end.
  destruct (IH (S n)) as (phs & ->). eexists. reflexivity.
Qed.

(** C7, as the code has it: in the stream of labels of a segment, a silence
    label appends the start marker exactly when it is the first label; a
    silence label that is the last label and not also the first appends the
    rising-end marker when the end-tone feature is 1 and the plain end
    marker otherwise; any other silence label appends nothing. The phones
    of the segment are the derivation without its first and its last
    symbol. *)
Theorem silence_markers (text : str) (labels phones : list str) :
  make_label E text = Ok labels ->
  _pyopenjtalk_g2p_prosody E text = Ok phones ->
  (exists parts,
     phones = concat parts /\ length parts = length labels
     /\ forall n lab, labels !! n = Some lab ->
          label_phone E lab = Ok (u "sil") ->
          exists e3,
            _numeric_feature_by_regex E (RE_E3 E) lab = Ok e3
            /\ parts !! n
               = Some (if (n =? 0)%nat then [u "^"]
                       else if (n =? length labels - 1)%nat
                            then [if (e3 =? 1)%Z then u "?" else u "$"]
                            else []))
  /\ (forall first inner last, phones = first :: inner ++ [last] ->
        segment_phones E true text = Ok inner)
  /\ ((length phones <= 2)%nat -> segment_phones E true text = Ok []).
Proof.
  intros Hlab Hpro. split; [|split].
  - unfold _pyopenjtalk_g2p_prosody in Hpro. rewrite Hlab in Hpro. cbn in Hpro.
    destruct (prosody_loop_parts _ _ _ _ Hpro) as (parts & Hc & Hlen & Hparts).
    exists parts. split; [exact Hc|]. split; [exact Hlen|].
    intros n lab Hn Hsil.
    destruct (Hparts n lab Hn) as (part & Hp & Hl).
    destruct (silence_label_phones (length labels) n lab
                (default [] (labels !! S n)) Hsil) as (e3 & He3 & Hs).
    exists e3. split; [exact He3|].
    rewrite Hp. f_equal. simpl in Hl. congruence.
  - intros first inner last ->. unfold segment_phones. rewrite Hpro.
    unfold fmap, result_fmap. rewrite slice_1_m1_inner. reflexivity.
  - intros Hshort. unfold segment_phones. rewrite Hpro.
    unfold fmap, result_fmap. rewrite slice_1_m1_short by exact Hshort.
    reflexivity.
Qed.

(** The boundary marker after a phone, in terms of the three conditions. *)
Lemma boundary_marker_cases (p3 : str) (a1 a2 a3 f1 a2_next : Z) :
  let final := a3 = 1%Z /\ a2_next = 1%Z
               /\ substring_of p3 (u "aeiouAEIOUNcl") = true in
  let fall := a1 = 0%Z /\ a2_next = (a2 + 1)%Z /\ a2 <> f1 in
  let rise := a2 = 1%Z /\ a2_next = 2%Z in
  let marker := boundary_marker p3 a1 a2 a3 f1 a2_next in
  (final -> marker = [u "#"])
  /\ (~ final -> fall -> marker = [u "]"])
  /\ (~ final -> ~ fall -> rise -> marker = [u "["])
  /\ (~ final -> ~ fall -> ~ rise -> marker = []).
Proof.
  cbv zeta. unfold boundary_marker.
  destruct (Z.eqb_spec a3 1), (Z.eqb_spec a2_next 1),
    (substring_of p3 (u "aeiouAEIOUNcl")),
    (Z.eqb_spec a1 0), (Z.eqb_spec a2_next (a2 + 1)), (Z.eqb_spec a2 f1),
    (Z.eqb_spec a2 1), (Z.eqb_spec a2_next 2);
    cbn [andb negb]; repeat split; intros; try reflexivity;
    (tauto || (exfalso; tauto) || (exfalso; lia)).
Qed.

Lemma boundary_marker_length (p3 : str) (a1 a2 a3 f1 a2_next : Z) :
  (length (boundary_marker p3 a1 a2 a3 f1 a2_next) <= 1)%nat.
Proof. unfold boundary_marker. repeat case_match; simpl; lia. Qed.

(** Each marker is appended only when its own condition holds. *)
Lemma boundary_marker_inv (p3 : str) (a1 a2 a3 f1 a2_next : Z) :
  let marker := boundary_marker p3 a1 a2 a3 f1 a2_next in
  (marker = [u "#"] -> a3 = 1%Z /\ a2_next = 1%Z)
  /\ (marker = [u "]"] -> a1 = 0%Z /\ a2_next = (a2 + 1)%Z /\ a2 <> f1)
  /\ (marker = [u "["] -> a2 = 1%Z /\ a2_next = 2%Z).
Proof.
  cbv zeta. unfold boundary_marker.
  destruct (Z.eqb_spec a3 1), (Z.eqb_spec a2_next 1),
    (substring_of p3 (u "aeiouAEIOUNcl")),
    (Z.eqb_spec a1 0), (Z.eqb_spec a2_next (a2 + 1)), (Z.eqb_spec a2 f1),
    (Z.eqb_spec a2 1), (Z.eqb_spec a2_next 2);
    cbn [andb negb];
    repeat match goal with |- _ /\ _ => split end;
    intros Hm; try discriminate Hm; repeat split; try assumption; try lia.
Qed.

(** C8, as the code has it: after the phone of a label that is neither
    silence nor pause, at most one boundary marker is appended, the first
    in the order accent-phrase-final, pitch-fall, pitch-rise whose
    condition holds. A feature whose pattern is absent is -50. An absent
    feature of the accent-phrase-final, of the pitch-rise and of the first
    two conditions of the pitch-fall marker keeps that marker from being
    appended. *)
Theorem boundary_marker_choice (len n : nat) (lab_curr lab_next p3 : str) (a1 : Z) :
  label_phone E lab_curr = Ok p3 ->
  p3 <> u "sil" -> p3 <> u "pau" ->
  _numeric_feature_by_regex E RE_A1 lab_curr = Ok a1 ->
  exists a2 a3 f1 a2_next marker,
    _numeric_feature_by_regex E (RE_A2 E) lab_curr = Ok a2
    /\ _numeric_feature_by_regex E (RE_A3 E) lab_curr = Ok a3
    /\ _numeric_feature_by_regex E (RE_F1 E) lab_curr = Ok f1
    /\ _numeric_feature_by_regex E (RE_A2 E) lab_next = Ok a2_next
    /\ label_phones E len n lab_curr lab_next = Ok (p3 :: marker)
    /\ (length marker <= 1)%nat
    /\ (let final := a3 = 1%Z /\ a2_next = 1%Z
                      /\ substring_of p3 (u "aeiouAEIOUNcl") = true in
        let fall := a1 = 0%Z /\ a2_next = (a2 + 1)%Z /\ a2 <> f1 in
        let rise := a2 = 1%Z /\ a2_next = 2%Z in
        (final -> marker = [u "#"])
        /\ (~ final -> fall -> marker = [u "]"])
        /\ (~ final -> ~ fall -> rise -> marker = [u "["])
        /\ (~ final -> ~ fall -> ~ rise -> marker = []))
    /\ (forall regex s, Re.search regex s = None ->
          _numeric_feature_by_regex E regex s = Ok (-50)%Z)
    /\ (Re.search (RE_A3 E) lab_curr = None
          \/ Re.search (RE_A2 E) lab_next = None -> marker <> [u "#"])
    /\ (Re.search RE_A1 lab_curr = None
          \/ Re.search (RE_A2 E) lab_curr = None
          \/ Re.search (RE_A2 E) lab_next = None -> marker <> [u "]"])
    /\ (Re.search (RE_A2 E) lab_curr = None
          \/ Re.search (RE_A2 E) lab_next = None -> marker <> [u "["]).
Proof.
  intros Hp3 Hsil Hpau Ha1.
  destruct (digit_feature E (RE_A2 E) lab_curr (digit_pattern_A2 E))
    as (a2 & Ha2 & Ha2n & Ha2p).
  destruct (digit_feature E (RE_A3 E) lab_curr (digit_pattern_A3 E))
    as (a3 & Ha3 & Ha3n & _).
  destruct (digit_feature E (RE_F1 E) lab_curr (digit_pattern_F1 E))
    as (f1 & Hf1 & _).
  destruct (digit_feature E (RE_A2 E) lab_next (digit_pattern_A2 E))
    as (a2n & Ha2x & Ha2xn & Ha2xp).
  exists a2, a3, f1, a2n, (boundary_marker p3 a1 a2 a3 f1 a2n).
  pose proof (boundary_marker_inv p3 a1 a2 a3 f1 a2n) as (Hi1 & Hi2 & Hi3).
  assert (Hx : a2n = (-50)%Z \/ (0 <= a2n)%Z).
  { destruct (Re.search (RE_A2 E) lab_next) eqn:Hs;
      [right; apply Ha2xp; congruence | left; apply Ha2xn; reflexivity]. }
  assert (Hy : a2 = (-50)%Z \/ (0 <= a2)%Z).
  { destruct (Re.search (RE_A2 E) lab_curr) eqn:Hs;
      [right; apply Ha2p; congruence | left; apply Ha2n; reflexivity]. }
  repeat match goal with |- _ /\ _ => split end;
    try assumption.
  - unfold label_phones. rewrite Hp3. cbn [mbind result_bind].
    apply str_eqb_neq in Hsil, Hpau. rewrite Hsil, Hpau.
    rewrite Ha1, Ha2, Ha3, Hf1, Ha2x. reflexivity.
  - apply boundary_marker_length.
  - apply (boundary_marker_cases p3 a1 a2 a3 f1 a2n).
  - apply absent_feature.
  - intros Habs Hm. apply Hi1 in Hm as [-> ->].
    destruct Habs as [H|H]; [apply Ha3n in H | apply Ha2xn in H]; discriminate.
  - intros Habs Hm. apply Hi2 in Hm as (-> & Hn & Hd).
    destruct Habs as [H|[H|H]].
    + rewrite (absent_feature E _ _ H) in Ha1. discriminate.
    + apply Ha2n in H. lia.
    + apply Ha2xn in H. lia.
  - intros Habs Hm. apply Hi3 in Hm as [-> ->].
    destruct Habs as [H|H]; [apply Ha2n in H | apply Ha2xn in H]; discriminate.
Qed.

End WithExternals.

(** [silence_markers] on the labels of the worked utterance. *)
Lemma silence_markers_witness :
  make_label Fixtures.working (u "ka") = Ok Fixtures.labels
  /\ _pyopenjtalk_g2p_prosody Fixtures.working (u "ka")
     = Ok [u "^"; u "k"; u "a"; u "$"]
  /\ segment_phones Fixtures.working true (u "ka") = Ok [u "k"; u "a"].
Proof.
  split; [reflexivity|]. split; [reflexivity|].
  destruct (silence_markers Fixtures.working (u "ka") Fixtures.labels
              [u "^"; u "k"; u "a"; u "$"] eq_refl eq_refl) as (_ & H & _).
  apply (H (u "^") [u "k"; u "a"] (u "$")). reflexivity.
Defined.

(** C7, as the specification words it, fails on a stream of one label: the
    label is the last one and a silence, and what it appends is the start
    marker, not an end marker. *)
Lemma lone_silence_has_no_end_marker :
  [Fixtures.label_sil_last] !! (length [Fixtures.label_sil_last] - 1)%nat
    = Some Fixtures.label_sil_last
  /\ label_phone Fixtures.working Fixtures.label_sil_last = Ok (u "sil")
  /\ prosody_loop Fixtures.working 1 0 [Fixtures.label_sil_last] = Ok [u "^"].
Proof. repeat split. Qed.

(** [boundary_marker_choice] on these two labels. *)
Lemma boundary_marker_choice_witness :
  label_phone Fixtures.working Fixtures.label_without_F = Ok (u "k")
  /\ u "k" <> u "sil" /\ u "k" <> u "pau"
  /\ _numeric_feature_by_regex Fixtures.working RE_A1 Fixtures.label_without_F
     = Ok 0%Z
  /\ exists marker,
       label_phones Fixtures.working 3 1 Fixtures.label_without_F
         Fixtures.label_after = Ok (u "k" :: marker)
       /\ (length marker <= 1)%nat.
Proof.
  split; [reflexivity|]. split; [discriminate|]. split; [discriminate|].
  split; [reflexivity|].
  destruct (boundary_marker_choice Fixtures.working 3 1 Fixtures.label_without_F
              Fixtures.label_after (u "k") 0%Z eq_refl ltac:(discriminate)
              ltac:(discriminate) eq_refl)
    as (a2 & a3 & f1 & a2n & marker & _ & _ & _ & _ & H & Hlen & _).
  exists marker. split; [exact H | exact Hlen].
Defined.

(** C8, as the specification words it, fails: the label has no [/F:]
    field, so that feature is the sentinel -50, and the pitch-fall marker
    is appended all the same, because -50 differs from the mora position. *)
Lemma absent_F1_allows_pitch_fall :
  Re.search (RE_F1 Fixtures.working) Fixtures.label_without_F = None
  /\ _numeric_feature_by_regex Fixtures.working (RE_F1 Fixtures.working)
       Fixtures.label_without_F = Ok (-50)%Z
  /\ label_phones Fixtures.working 3 1 Fixtures.label_without_F
       Fixtures.label_after = Ok [u "k"; u "]"].
Proof. repeat split. Qed.

End ProsodyFacts.

(* ===================================================================== *)
(** * The Japanese phonemizer                                              *)
(* ===================================================================== *)

Module G2PFacts.
Import PyUnicode JapaneseG2P JapaneseSpans PyFacts.

Lemma mapM_result_app {A B} (f : A -> result B) (l1 l2 : list A) :
  mapM_result f (l1 ++ l2)
  = (a ← mapM_result f l1; b ← mapM_result f l2; Ok (a ++ b)).
Proof.
  induction l1 as [|x l1 IH]; simpl.
  - destruct (mapM_result f l2); reflexivity.
  - destruct (f x) as [y|e]; [|reflexivity]. cbn.
    rewrite IH. destruct (mapM_result f l1) as [ys|e]; [|reflexivity]. cbn.
    destruct (mapM_result f l2); reflexivity.
Qed.

Lemma findall_class_cons (cls : N -> bool) (c : N) (r : str) :
  Re.findall_class cls (c :: r)
  = if cls c then [c] :: Re.findall_class cls r else Re.findall_class cls r.
Proof.
  unfold Re.findall_class, str. rewrite filter_cons.
  destruct (cls c); case_decide; (reflexivity || congruence).
Qed.

Section WithExternals.
Variable E : Externals.

Lemma span_phones_content (cur : str) :
  span_phones E (Content cur) = segment_phones E true cur.
Proof. reflexivity. Qed.

(** The phones of the pieces and marks the two regular-expression calls
    return, taken by index, are the phones of the spans of one pass. *)
Lemma g2p_loop_spans (s : str) :
  forall cur pre,
  g2p_loop E true (pre ++ Re.findall_class (is_japanese_mark E) s) (length pre)
           (Re.split_class (is_japanese_mark E) cur s)
  = (fun ls => concat ls)
      <$> mapM_result (span_phones E) (spans (is_japanese_char E) cur s).
Proof.
  induction s as [|c r IH]; intros cur pre.
  - cbn [Re.split_class Re.findall_class spans g2p_loop].
    assert (Hnone : (pre ++ Re.findall_class (is_japanese_mark E) [])
                    !! length pre = None).
    { apply lookup_ge_None.
      change (Re.findall_class (is_japanese_mark E) []) with (@nil str).
      rewrite app_nil_r. lia. }
    rewrite Hnone. unfold flush.
    destruct cur as [|c0 cur]; [reflexivity|].
    cbn [truthy mapM_result]. rewrite span_phones_content.
    destruct (segment_phones E true (c0 :: cur)) as [y|e]; [|reflexivity].
    cbn. rewrite !app_nil_r. reflexivity.
  - assert (Hm : is_japanese_mark E c = negb (is_japanese_char E c))
      by reflexivity.
    cbn [Re.split_class spans]. rewrite findall_class_cons, Hm.
    destruct (is_japanese_char E c) eqn:Hc; cbn [negb].
    + apply IH.
    + cbn [g2p_loop].
      rewrite list_lookup_middle by reflexivity.
      specialize (IH [] (pre ++ [[c]])).
      rewrite length_app, Nat.add_1_r, <- app_assoc in IH.
      cbn [app] in IH.
      rewrite mapM_result_app. cbn [mapM_result span_phones].
      unfold flush.
      destruct cur as [|c0 cur]; cbn [truthy mapM_result].
      * cbn [mbind result_bind]. unfold str in *. rewrite IH.
        match goal with
        | |- context [@mapM_result ?A ?B ?f ?l] =>
            destruct (@mapM_result A B f l) as [ys|e]; [|reflexivity]
        end.
        cbn. destruct (truthy (strip [c])); reflexivity.
      * rewrite span_phones_content.
        destruct (segment_phones E true (c0 :: cur)) as [y|e]; [|reflexivity].
        cbn [mbind result_bind]. unfold str in *. rewrite IH.
        match goal with
        | |- context [@mapM_result ?A ?B ?f ?l] =>
            destruct (@mapM_result A B f l) as [ys|e]; [|reflexivity]
        end.
        cbn. rewrite ?app_nil_r.
        destruct (truthy (strip [c])); reflexivity.
Qed.

(** The spans partition the text, in order. *)
Lemma spans_text (is_content : N -> bool) (s : str) :
  forall cur, concat (map span_text (spans is_content cur s)) = cur ++ s.
Proof.
  induction s as [|c r IH]; intros cur; cbn [spans].
  - unfold flush. destruct cur; [reflexivity|]. cbn.
    rewrite !app_nil_r. reflexivity.
  - destruct (is_content c).
    + rewrite IH, <- app_assoc. reflexivity.
    + rewrite map_app, concat_app. cbn [map concat span_text].
      rewrite IH. unfold flush. destruct cur; [reflexivity|].
      cbn. rewrite !app_nil_r. reflexivity.
Qed.

Lemma spans_classified (s : str) :
  forall cur, forallb (is_japanese_char E) cur = true ->
  Forall (span_classified E) (spans (is_japanese_char E) cur s).
Proof.
  assert (Hflush : forall cur, forallb (is_japanese_char E) cur = true ->
            Forall (span_classified E) (flush cur)).
  { intros cur Hcur. unfold flush. destruct cur; cbn [truthy]; constructor;
      [split; [discriminate | exact Hcur] | constructor]. }
  induction s as [|c r IH]; intros cur Hcur; cbn [spans].
  - apply Hflush, Hcur.
  - destruct (is_japanese_char E c) eqn:Hc.
    + apply IH. rewrite forallb_app, Hcur. simpl. rewrite Hc. reflexivity.
    + apply Forall_app. split; [apply Hflush, Hcur|].
      constructor; [exact Hc | apply IH; reflexivity].
Qed.

Lemma g2p_japanese (text : str) :
  strip text <> [] -> is_chinese text = false ->
  g2p E text true = spans_g2p E text.
Proof.
  intros Hnb Hzh. unfold g2p, spans_g2p.
  apply truthy_true_iff in Hnb. rewrite Hnb, Hzh. cbn [negb].
  pose proof (g2p_loop_spans (_text_normalize E text) [] []) as H.
  cbn [app length] in H. rewrite H.
  destruct (mapM_result _ _); reflexivity.
Qed.

(** C1, as the code has it: a non-blank text without a character in
    U+4E00..U+9FA5 is normalized and cut into spans, content spans and
    marks, that make up the normalized text in order; every content span
    is read through the labels of the linguistic front-end. A text with a
    character in U+4E00..U+9FA5 is romanized as Chinese instead. *)
Theorem g2p_by_script (text : str) :
  strip text <> [] ->
  let segmentation := spans (is_japanese_char E) [] (_text_normalize E text) in
  (is_chinese text = false -> g2p E text true = spans_g2p E text)
  /\ concat (map span_text segmentation) = _text_normalize E text
  /\ Forall (span_classified E) segmentation
  /\ (is_chinese text = true -> g2p E text true = _chinese_g2p E text).
Proof.
  intros Hnb. cbv zeta. split; [|split; [|split]].
  - apply g2p_japanese, Hnb.
  - apply spans_text.
  - apply spans_classified. reflexivity.
  - intros Hzh. unfold g2p. apply truthy_true_iff in Hnb.
    rewrite Hnb, Hzh. reflexivity.
Qed.

End WithExternals.

(** [g2p_by_script] on a kana text with a comma. *)
Lemma g2p_by_script_witness :
  strip [0x304B; 0x2C] <> []
  /\ g2p Fixtures.working [0x304B; 0x2C] true = Ok [u "k"; u "a"; u ","].
Proof.
  split; [discriminate|].
  destruct (g2p_by_script Fixtures.working [0x304B; 0x2C]
              ltac:(discriminate)) as (H & _).
  rewrite H; reflexivity.
Defined.

(** C1, as the specification words it, fails: a text of one kanji is not
    read through the labels of the Japanese front-end but romanized as
    Chinese. *)
Lemma kanji_is_romanized_as_chinese :
  strip [0x6F22] <> []
  /\ is_japanese_char Fixtures.working 0x6F22 = true
  /\ spans_g2p Fixtures.working [0x6F22] = Ok [u "k"; u "a"]
  /\ g2p Fixtures.working [0x6F22] true = Ok [u "h"; u "an4"]
  /\ g2p Fixtures.working [0x6F22] true <> spans_g2p Fixtures.working [0x6F22].
Proof. repeat split; discriminate. Qed.

End G2PFacts.

(* ===================================================================== *)
(** * The bounded cache                                                    *)
(* ===================================================================== *)

Module CacheFacts.
Import LRUCacheDict PyFacts.

Section Cache.
Context {V : Type}.
Implicit Types (c : t V) (l : list (str * V)) (k : str) (v : V).

Lemma without_absent k l : k ∉ map fst l -> without k l = l.
Proof.
  unfold without. induction l as [|[k' v'] l IH]; intros Hk; [reflexivity|].
  cbn [map fst] in Hk. apply not_elem_of_cons in Hk as [Hne Hk].
  rewrite filter_cons_True by (simpl; congruence).
  rewrite IH by exact Hk. reflexivity.
Qed.

Lemma without_app k l1 l2 : without k (l1 ++ l2) = without k l1 ++ without k l2.
Proof. unfold without. apply filter_app. Qed.

Lemma without_keys k l : k ∉ map fst (without k l).
Proof.
  unfold without. intros Hin.
  apply list_elem_of_fmap in Hin as ([k' v'] & -> & Hin).
  apply list_elem_of_filter in Hin as [Hne _]. simpl in Hne. congruence.
Qed.

Lemma without_idem k l : without k (without k l) = without k l.
Proof. apply without_absent, without_keys. Qed.

Lemma find_key_None k l :
  find (fun kv => str_eqb (fst kv) k) l = None <-> k ∉ map fst l.
Proof.
  induction l as [|[k' v'] l IH]; simpl.
  - split; [intros _; apply not_elem_of_nil | reflexivity].
  - destruct (str_eqb k' k) eqn:Hk.
    + apply str_eqb_eq in Hk as ->. split; [discriminate|].
      intros H. exfalso. apply H. left.
    + apply str_eqb_neq in Hk. rewrite IH, not_elem_of_cons. split.
      * intros H. split; [congruence | exact H].
      * intros [_ H]. exact H.
Qed.

Lemma contains_keys k c : contains k c = true <-> k ∈ keys c.
Proof.
  unfold contains, lookup, keys.
  destruct (find _ (items c)) as [kv|] eqn:Hf; simpl.
  - split; [intros _ | reflexivity].
    destruct (decide (k ∈ map fst (items c))) as [Hin|Hnin]; [exact Hin|].
    apply find_key_None in Hnin. congruence.
  - split; [discriminate|]. intros Hin. apply find_key_None in Hf. contradiction.
Qed.

Lemma contains_false_keys k c : contains k c = false <-> k ∉ keys c.
Proof.
  rewrite <- contains_keys. destruct (contains k c); split; congruence.
Qed.

(** Looking a key up after it was put last. *)
Lemma lookup_last k v l cap :
  lookup k {| capacity := cap; items := without k l ++ [(k, v)] |} = Some v.
Proof.
  unfold lookup. cbn [items].
  pose proof (without_keys k l) as Hk. apply find_key_None in Hk.
  induction (without k l) as [|[k' v'] l' IH]; simpl in *.
  - rewrite (proj2 (str_eqb_eq k k) eq_refl). reflexivity.
  - destruct (str_eqb k' k); [discriminate|]. apply IH, Hk.
Qed.

Lemma lookup_app_last k v l cap :
  k ∉ map fst l ->
  lookup k {| capacity := cap; items := l ++ [(k, v)] |} = Some v.
Proof.
  intros Hk. rewrite <- (without_absent k l Hk). apply lookup_last.
Qed.

Lemma without_app_last k v l :
  k ∉ map fst l -> without k (l ++ [(k, v)]) = l.
Proof.
  intros Hk. rewrite without_app, without_absent by exact Hk.
  unfold without. rewrite filter_cons_False by (simpl; tauto).
  rewrite filter_nil. apply app_nil_r.
Qed.

Lemma lookup_items_last k v c l :
  items c = l ++ [(k, v)] -> k ∉ map fst l -> lookup k c = Some v.
Proof.
  intros Hi Hk. destruct c as [cap its]. cbn [items] in Hi. subst its.
  apply lookup_app_last, Hk.
Qed.

(** With room for one entry, the key just inserted is in the cache, last. *)
Lemma setitem_last k v c :
  (1 <= capacity c)%nat ->
  exists older, items (setitem k v c) = older ++ [(k, v)] /\ k ∉ map fst older.
Proof.
  intros Hcap. unfold setitem. cbn [items].
  pose proof (without_keys k (items c)) as Hk.
  destruct (Nat.ltb_spec (capacity c) (length (without k (items c) ++ [(k, v)])))
    as [Hlt|Hge].
  - rewrite length_app in Hlt. cbn [length] in Hlt.
    destruct (without k (items c)) as [|kv w]; [simpl in Hlt; lia|].
    exists w. split; [reflexivity|].
    cbn [map] in Hk. apply not_elem_of_cons in Hk as [_ Hk]. exact Hk.
  - exists (without k (items c)). split; [reflexivity | exact Hk].
Qed.

(** Inserting distinct keys into an empty cache keeps the last
    [capacity] of them, in order. *)
Lemma insert_all_items (cap : nat) (kvs : list (str * V)) :
  NoDup (map fst kvs) ->
  insert_all kvs (new cap)
  = {| capacity := cap; items := drop (length kvs - cap) kvs |}.
Proof.
  unfold insert_all.
  induction kvs as [|[k v] kvs IH] using rev_ind; intros Hnd; [reflexivity|].
  rewrite fold_left_app. cbn [fold_left fst snd].
  rewrite map_app in Hnd. apply NoDup_app in Hnd as (Hnd & Hk & _).
  rewrite IH by exact Hnd. unfold setitem. cbn [capacity items].
  assert (Hnotin : k ∉ map fst (drop (length kvs - cap) kvs)).
  { intros Hin. apply (Hk k); [|cbn; left].
    rewrite <- (take_drop (length kvs - cap) kvs), map_app.
    apply elem_of_app. right. exact Hin. }
  rewrite without_absent by exact Hnotin.
  f_equal. rewrite !length_app, length_drop. cbn [length].
  destruct (Nat.ltb_spec cap (length kvs - (length kvs - cap) + 1)) as [Hlt|Hge].
  - replace (length kvs + 1 - cap)%nat with (length kvs - cap + 1)%nat by lia.
    rewrite <- drop_drop. f_equal.
    rewrite drop_app_le by lia. reflexivity.
  - replace (length kvs + 1 - cap)%nat with 0%nat by lia.
    replace (length kvs - cap)%nat with 0%nat by lia. reflexivity.
Qed.

(** An insertion of a new key into a full cache drops exactly the least
    recently used entry. *)
Lemma setitem_full k v c :
  length (items c) = capacity c -> k ∉ keys c ->
  items (setitem k v c) = drop 1 (items c ++ [(k, v)])
  /\ length (items (setitem k v c)) = capacity c.
Proof.
  intros Hfull Hk. unfold setitem. cbn [items].
  rewrite without_absent by exact Hk.
  rewrite length_app. cbn [length].
  destruct (Nat.ltb_spec (capacity c) (length (items c) + 1)) as [_|Hge]; [|lia].
  split; [reflexivity|]. rewrite length_drop, length_app. cbn [length]. lia.
Qed.

(** With room for one entry or more, the insertion is the one of the
    specification's sentence: evict first when the cache is full. *)
Lemma setitem_evict_first_eq k v c :
  (1 <= capacity c)%nat -> NoDup (keys c) ->
  (length (items c) <= capacity c)%nat ->
  setitem k v c = setitem_evict_first k v c.
Proof.
  intros Hcap Hnd Hlen. unfold setitem, setitem_evict_first.
  destruct (contains k c) eqn:Hc.
  - f_equal. apply contains_keys in Hc.
    assert (Hshort : (length (without k (items c)) < length (items c))%nat).
    { unfold keys in Hc. unfold without.
      apply list_elem_of_fmap in Hc as ([k' v'] & -> & Hin).
      cbn [fst]. clear Hnd Hlen.
      induction (items c) as [|kv l IH]; [inversion Hin|].
      rewrite filter_cons. apply elem_of_cons in Hin as [<-|Hin].
      - rewrite decide_False by (simpl; congruence).
        apply Nat.lt_succ_r, length_filter.
      - specialize (IH Hin). case_decide; simpl; lia. }
    rewrite length_app. cbn [length].
    destruct (Nat.ltb_spec (capacity c) (length (without k (items c)) + 1));
      [lia | reflexivity].
  - apply contains_false_keys in Hc. rewrite without_absent by exact Hc.
    f_equal. rewrite length_app. cbn [length].
    destruct (Nat.ltb_spec (capacity c) (length (items c) + 1)),
             (Nat.leb_spec (capacity c) (length (items c))); try lia.
    + destruct (items c) as [|kv l]; [simpl in *; lia | reflexivity].
    + reflexivity.
Qed.

(** C5: a cache of capacity [n] into which [n + 1] entries with distinct
    keys are inserted holds exactly [n] entries, all but the first
    inserted, which is the least recently used one; and every insertion
    of a new key into a full cache evicts exactly one entry, the least
    recently used one. *)
Theorem eviction (n : nat) (kvs : list (str * V)) :
  NoDup (map fst kvs) -> length kvs = S n ->
  let c := insert_all kvs (new n) in
  length (items c) = n
  /\ items c = drop 1 kvs
  /\ (forall k0, head (map fst kvs) = Some k0 -> contains k0 c = false)
  /\ (forall k, k ∈ drop 1 (map fst kvs) -> contains k c = true)
  /\ (forall (full : t V) k v,
        length (items full) = capacity full -> k ∉ keys full ->
        items (setitem k v full) = drop 1 (items full ++ [(k, v)])
        /\ length (items (setitem k v full)) = capacity full).
Proof.
  intros Hnd Hlen. cbv zeta. rewrite insert_all_items by exact Hnd.
  cbn [items]. rewrite Hlen. replace (S n - n)%nat with 1%nat by lia.
  split; [rewrite length_drop; lia|]. split; [reflexivity|].
  split; [|split].
  - intros k0 Hk0. apply contains_false_keys. unfold keys. cbn [items].
    destruct kvs as [|[k v] kvs]; [discriminate|].
    cbn in Hk0. injection Hk0 as <-.
    cbn [map fst] in Hnd. apply NoDup_cons in Hnd as [Hk _]. exact Hk.
  - intros k Hk. apply contains_keys. unfold keys. cbn [items].
    destruct kvs; exact Hk.
  - intros full k v. apply setitem_full.
Qed.

End Cache.

(** [eviction] on a cache of capacity two. *)
Lemma eviction_witness :
  NoDup (map fst [(u "a", 1%nat); (u "b", 2%nat); (u "c", 3%nat)])
  /\ length [(u "a", 1%nat); (u "b", 2%nat); (u "c", 3%nat)] = 3%nat
  /\ items (insert_all [(u "a", 1%nat); (u "b", 2%nat); (u "c", 3%nat)] (new 2))
     = [(u "b", 2%nat); (u "c", 3%nat)].
Proof.
  assert (Hnd : NoDup (map fst [(u "a", 1%nat); (u "b", 2%nat); (u "c", 3%nat)])).
  { apply (bool_decide_unpack _). vm_compute. exact I. }
  split; [exact Hnd|]. split; [reflexivity|].
  destruct (eviction 2 [(u "a", 1%nat); (u "b", 2%nat); (u "c", 3%nat)]
              Hnd eq_refl) as (_ & H & _).
  exact H.
Defined.

(** A lookup counts as a use: after [a] is read, [b] is the entry the next
    insertion evicts. *)
Example lookup_refreshes :
  (c1 ← snd <$> getitem (u "a")
          (insert_all [(u "a", 1%nat); (u "b", 2%nat)] (new 2));
   Some (keys (setitem (u "c") 3%nat c1)))
  = Some [u "a"; u "c"].
Proof. reflexivity. Qed.

End CacheFacts.

(* ===================================================================== *)
(** * The reference-audio cache                                            *)
(* ===================================================================== *)

Module AudioFacts.
Import LRUCacheDict ReferenceAudio PyFacts CacheFacts.

Lemma obj_put_eq (l : nat) (o : object) (s : state) : obj l (put l o s) = o.
Proof. unfold obj, put. cbn [heap with_heap]. rewrite lookup_insert_eq. reflexivity. Qed.

Lemma obj_put_ne (l l' : nat) (o : object) (s : state) :
  l <> l' -> obj l' (put l o s) = obj l' s.
Proof.
  intros Hne. unfold obj, put. cbn [heap with_heap].
  rewrite lookup_insert_ne by exact Hne. reflexivity.
Qed.

Lemma put_put (l : nat) (o1 o2 : object) (s : state) :
  put l o2 (put l o1 s) = put l o2 s.
Proof.
  unfold put, with_heap. cbn [heap next_addr _prompt_cache cn_hubert calls].
  rewrite insert_insert_eq. reflexivity.
Qed.

Lemma with_cache_same (s : state) : with_cache (_prompt_cache s) s = s.
Proof. destruct s. reflexivity. Qed.

Lemma obj_with_call (l : nat) (c : call) (s : state) :
  obj l (with_call c s) = obj l s.
Proof. reflexivity. Qed.

Lemma obj_with_cache (l : nat) (c : LRUCacheDict.t nat) (s : state) :
  obj l (with_cache c s) = obj l s.
Proof. reflexivity. Qed.

Lemma obj_with_cn_hubert (l : nat) (b : bool) (s : state) :
  obj l (with_cn_hubert b s) = obj l s.
Proof. reflexivity. Qed.

Lemma with_call_put (l : nat) (o : object) (c : call) (s : state) :
  with_call c (put l o s) = put l o (with_call c s).
Proof. reflexivity. Qed.

Lemma with_cn_hubert_put (l : nat) (o : object) (b : bool) (s : state) :
  with_cn_hubert b (put l o s) = put l o (with_cn_hubert b s).
Proof. reflexivity. Qed.

Ltac normalize_state_in H :=
  repeat (rewrite with_call_put in H || rewrite with_cn_hubert_put in H
          || rewrite obj_with_call in H || rewrite obj_with_cn_hubert in H
          || rewrite obj_with_cache in H || rewrite obj_put_eq in H
          || rewrite put_put in H).

(** Bring a state to the form [put l o s], with the object read back. *)
Ltac normalize_state :=
  repeat (rewrite with_call_put || rewrite with_cn_hubert_put
          || rewrite obj_with_call || rewrite obj_with_cn_hubert
          || rewrite obj_with_cache || rewrite obj_put_eq || rewrite put_put).

Section WithExternals.
Variable E : Externals.

(** [set_text] in one step: the two attribute assignments come first and
    stay when a collaborator raises. *)
Lemma set_text_run (self : nat) (prompt_text language : str) (s : state) :
  set_text E self prompt_text language s
  = let o := obj self s in
    let s0 := with_call (phones_call language prompt_text) s in
    match phones_of E language prompt_text with
    | Raise e => (Raise e, put self (retexted prompt_text language o) s0)
    | Ok ids =>
        let o1 := set_phonemes_seq (Some [ids]) (retexted prompt_text language o) in
        let s1 := if str_eqb language (u "zh")
                  then with_call (BertFeatures prompt_text) s0 else s0 in
        match features_of E language prompt_text (length ids) with
        | Raise e => (Raise e, put self o1 s1)
        | Ok features =>
            (Ok tt, put self (updated prompt_text language ids features o) s1)
        end
    end.
Proof.
  unfold set_text, phones_of, features_of, phones_call, updated, retexted.
  cbv zeta.
  unfold mbind, M_bind, assign, invoke, _extract_bert_features, read, lift,
    mret, M_ret.
  destruct (str_eqb language (u "zh")); cbv beta.
  - destruct (ChineseG2P.chinese_to_phones E prompt_text) as [ids|e];
      [|normalize_state; reflexivity].
    unfold mbind, M_bind, invoke.
    destruct (bert_last_hidden_state E prompt_text) as [features|e];
      cbn [fmap result_fmap]; cbv beta iota; normalize_state;
      cbn [phonemes_seq set_phonemes_seq shape_1 length]; normalize_state;
      reflexivity.
  - destruct (JapaneseG2P.japanese_to_phones E prompt_text) as [ids|e];
      normalize_state; reflexivity.
Qed.


(** The audio half of the initialization touches the audio attributes and
    the flag of its object and nothing else; the flag is set exactly when
    it returns. *)
Lemma init_audio_run (self : nat) (prompt_wav : str) (s s' : state) (r : result unit) :
  init_audio E self prompt_wav s = (r, s') ->
  _prompt_cache s' = _prompt_cache s /\ next_addr s' = next_addr s
  /\ text (obj self s') = text (obj self s)
  /\ language (obj self s') = language (obj self s)
  /\ (exists more, calls s' = calls s ++ LoadAudio prompt_wav :: more)
  /\ match r with
     | Ok _ => _initialized (obj self s') = Some true
     | Raise _ => _initialized (obj self s') = _initialized (obj self s)
     end.
Proof.
  intros H. unfold init_audio in H.
  unfold mbind, M_bind, assign, invoke, ensure_cn_hubert, lift in H.
  destruct (load_audio E prompt_wav) as [audio|e];
    [|injection H as <- <-; repeat split; eexists; reflexivity].
  destruct (soxr_resample E audio) as [audio_16k|e];
    [|injection H as <- <-; normalize_state; repeat split; cbn;
      rewrite <- app_assoc; eexists; reflexivity].
  normalize_state_in H. cbn [cn_hubert with_call put with_heap] in H.
  assert (Hcalls : forall base (c : call),
            (exists m, base = calls s ++ LoadAudio prompt_wav :: m) ->
            exists m, base ++ [c] = calls s ++ LoadAudio prompt_wav :: m).
  { intros base c [m ->]. exists (m ++ [c]).
    rewrite <- app_assoc. reflexivity. }
  destruct (cn_hubert s).
  - destruct (cn_hubert_run E [audio_16k]) as [[|out outs]|e];
      injection H as <- <-; normalize_state; cbn; repeat split;
      repeat first [ by exists [] | apply Hcalls ].
  - destruct (load_cn_hubert E) as [[]|e].
    + destruct (cn_hubert_run E [audio_16k]) as [[|out outs]|e];
        injection H as <- <-; normalize_state; cbn; repeat split;
        repeat first [ by exists [] | apply Hcalls ].
    + injection H as <- <-; normalize_state; cbn; repeat split;
        repeat first [ by exists [] | apply Hcalls ].
Qed.



(** [set_text] touches the text attributes of its object and nothing
    else, whatever its outcome. *)
Lemma set_text_frame (self : nat) (prompt_text language : str)
    (s s' : state) (r : result unit) :
  set_text E self prompt_text language s = (r, s') ->
  _prompt_cache s' = _prompt_cache s /\ next_addr s' = next_addr s
  /\ text (obj self s') = Some prompt_text
  /\ ReferenceAudio.language (obj self s') = Some language
  /\ _initialized (obj self s') = _initialized (obj self s)
  /\ exists more, calls s' = calls s ++ phones_call language prompt_text :: more.
Proof.
  rewrite set_text_run. cbv zeta.
  destruct (phones_of E language prompt_text) as [ids|e].
  - destruct (features_of E language prompt_text (length ids)) as [features|e];
      destruct (str_eqb language (u "zh"));
      intros H; injection H as <- <-; normalize_state;
      (repeat split;
       first [ by exists [] | eexists; cbn; rewrite <- app_assoc; reflexivity ]).
  - intros H. injection H as <- <-. normalize_state. repeat split. by exists [].
Qed.

Lemma init_initialized (self : nat) (prompt_wav prompt_text language : str)
    (s : state) :
  is_Some (_initialized (obj self s)) ->
  __init__ E self prompt_wav prompt_text language s = (Ok tt, s).
Proof.
  intros [b Hb]. unfold __init__, mbind, M_bind, read. rewrite Hb. reflexivity.
Qed.

(** [__init__] on an object without the flag: it sets the text and the
    language first, never touches the cache, consults the phonemizer, and
    sets the flag exactly when it returns. *)
Lemma init_fresh (self : nat) (prompt_wav prompt_text language : str)
    (s s' : state) (r : result unit) :
  _initialized (obj self s) = None ->
  __init__ E self prompt_wav prompt_text language s = (r, s') ->
  _prompt_cache s' = _prompt_cache s /\ next_addr s' = next_addr s
  /\ text (obj self s') = Some prompt_text
  /\ ReferenceAudio.language (obj self s') = Some language
  /\ (exists more, calls s' = calls s ++ phones_call language prompt_text :: more)
  /\ match r with
     | Ok _ => _initialized (obj self s') = Some true
     | Raise _ => _initialized (obj self s') = None
     end.
Proof.
  intros Hu H. unfold __init__ in H.
  unfold mbind at 1, M_bind at 1, read at 1 in H. rewrite Hu in H.
  unfold mbind, M_bind, assign, mret, M_ret in H.
  normalize_state_in H.
  destruct (set_text E self prompt_text language _) as [r1 s1] eqn:Hst in H.
  apply set_text_frame in Hst as (Hc & Hn & Ht & Hl & Hi & more & Hcalls).
  normalize_state_in Hi. cbn in Hc, Hn, Hi, Hcalls. rewrite Hu in Hi.
  destruct r1 as [[]|e].
  - destruct (init_audio E self prompt_wav s1) as [r2 s2] eqn:Hau.
    injection H as <- <-.
    apply init_audio_run in Hau as (Hc2 & Hn2 & Ht2 & Hl2 & [more2 Hcalls2] & Hi2).
    split; [congruence|]. split; [congruence|]. split; [congruence|].
    split; [congruence|]. split.
    + exists (more ++ LoadAudio prompt_wav :: more2).
      rewrite Hcalls2, Hcalls, <- app_assoc. reflexivity.
    + destruct r2; congruence.
  - injection H as <- <-. repeat split; try assumption. exists more. exact Hcalls.
Qed.

Lemma new_present (prompt_wav prompt_text language : str) (l : nat) (s : state) :
  lookup prompt_wav (_prompt_cache s) = Some l ->
  __new__ E prompt_wav prompt_text language s
  = match text (obj l s) with
    | None => (Raise AttributeError, refreshed prompt_wav l s)
    | Some t =>
        if negb (str_eqb t prompt_text)
           || negb (bool_decide (ReferenceAudio.language (obj l s) = Some language))
        then
          let (r, s') := set_text E l prompt_text language (refreshed prompt_wav l s) in
          (match r with Ok _ => Ok l | Raise e => Raise e end, s')
        else (Ok l, refreshed prompt_wav l s)
    end.
Proof.
  intros Hl. unfold __new__.
  unfold mbind at 1, M_bind at 1, cache_contains at 1, contains.
  rewrite Hl.
  unfold mbind at 1, M_bind at 1, cache_getitem at 1, getitem.
  rewrite Hl. fold (refreshed prompt_wav l s).
  unfold mbind at 1, M_bind at 1, read at 1.
  change (obj l (refreshed prompt_wav l s)) with (obj l s).
  destruct (text (obj l s)) as [t|]; [|reflexivity].
  unfold mbind, M_bind, mret, M_ret.
  destruct (negb (str_eqb t prompt_text) || _)%bool; [|reflexivity].
  destruct (set_text E l prompt_text language _) as [[[]|e] s']; reflexivity.
Qed.

Lemma new_absent (prompt_wav prompt_text language : str) (s : state) :
  lookup prompt_wav (_prompt_cache s) = None ->
  __new__ E prompt_wav prompt_text language s
  = (Ok (next_addr s), created prompt_wav s).
Proof.
  intros Hl. unfold __new__.
  unfold mbind at 1, M_bind at 1, cache_contains at 1, contains.
  rewrite Hl. reflexivity.
Qed.


(** The call is [__new__], then [__init__] on what it returns. *)
Lemma request_run (prompt_wav prompt_text language : str) (s : state) :
  request E prompt_wav prompt_text language s
  = let (r0, s0) := __new__ E prompt_wav prompt_text language s in
    match r0 with
    | Ok l =>
        let (r1, s1) := __init__ E l prompt_wav prompt_text language s0 in
        (match r1 with Ok _ => Ok l | Raise e => Raise e end, s1)
    | Raise e => (Raise e, s0)
    end.
Proof.
  unfold request, mbind, M_bind, mret, M_ret.
  destruct (__new__ E prompt_wav prompt_text language s) as [[l|e] s0];
    [|reflexivity].
  destruct (__init__ E l prompt_wav prompt_text language s0) as [[[]|e] s1];
    reflexivity.
Qed.

Lemma lookup_refreshed (k : str) (l : nat) (s : state) :
  lookup k (_prompt_cache (refreshed k l s)) = Some l.
Proof. apply lookup_last. Qed.

(** A request that returns leaves its entry settled. *)
Lemma request_settles (prompt_wav prompt_text language : str)
    (s s1 : state) (l : nat) :
  (1 <= capacity (_prompt_cache s))%nat ->
  request E prompt_wav prompt_text language s = (Ok l, s1) ->
  settled prompt_wav prompt_text language l s1.
Proof.
  intros Hcap H. rewrite request_run in H.
  assert (Hinit : forall l0 s0,
    (exists older, items (_prompt_cache s0) = older ++ [(prompt_wav, l0)]
                   /\ prompt_wav ∉ map fst older) ->
    (is_Some (_initialized (obj l0 s0)) ->
       text (obj l0 s0) = Some prompt_text
       /\ ReferenceAudio.language (obj l0 s0) = Some language) ->
    (let (r1, s1) := __init__ E l0 prompt_wav prompt_text language s0 in
     (match r1 with Ok _ => Ok l0 | Raise e => Raise e end, s1)) = (Ok l, s1) ->
    settled prompt_wav prompt_text language l s1).
  { intros l0 s0 Hlast Htl Hrun.
    destruct (_initialized (obj l0 s0)) as [b|] eqn:Hi.
    - rewrite init_initialized in Hrun by (rewrite Hi; eauto).
      injection Hrun as <- <-. destruct Htl as [Ht Hl]; [eauto|].
      repeat split; try assumption. rewrite Hi. eauto.
    - destruct (__init__ E l0 prompt_wav prompt_text language s0)
        as [r1 s1'] eqn:Hrun1.
      apply init_fresh in Hrun1 as (Hc & _ & Ht & Hl & _ & Hfl); [|exact Hi].
      destruct r1 as [[]|e]; [|discriminate].
      injection Hrun as <- <-. unfold settled. rewrite Hc.
      repeat split; try assumption. rewrite Hfl. eauto. }
  destruct (lookup prompt_wav (_prompt_cache s)) as [l0|] eqn:Hlook.
  - rewrite (new_present _ _ _ _ _ Hlook) in H.
    assert (Hlast : exists older,
              items (_prompt_cache (refreshed prompt_wav l0 s))
                = older ++ [(prompt_wav, l0)] /\ prompt_wav ∉ map fst older).
    { eexists. split; [reflexivity | apply without_keys]. }
    destruct (text (obj l0 s)) as [t|] eqn:Ht; [|discriminate].
    destruct (negb (str_eqb t prompt_text) || _)%bool eqn:Hchg.
    + destruct (set_text E l0 prompt_text language (refreshed prompt_wav l0 s))
        as [r0 s0] eqn:Hst.
      apply set_text_frame in Hst as (Hc & _ & Ht' & Hl' & _ & _).
      destruct r0 as [[]|e]; [|discriminate].
      apply (Hinit l0 s0); [rewrite Hc; exact Hlast | tauto | exact H].
    + apply orb_false_iff in Hchg as [Hsame Hlang].
      apply negb_false_iff, str_eqb_eq in Hsame.
      apply negb_false_iff, bool_decide_eq_true in Hlang.
      apply (Hinit l0 (refreshed prompt_wav l0 s)); [exact Hlast| |exact H].
      intros _. change (obj l0 (refreshed prompt_wav l0 s)) with (obj l0 s).
      split; congruence.
  - rewrite (new_absent _ _ _ _ Hlook) in H.
    apply (Hinit (next_addr s) (created prompt_wav s)); [| |exact H].
    + apply setitem_last, Hcap.
    + unfold obj, created. cbn [heap]. rewrite lookup_insert_eq.
      intros [b Hb]. discriminate.
Qed.

End WithExternals.

(** A settled entry is returned as it is, and the state stays as it is,
    whatever the collaborators would answer. *)
Lemma settled_request (E' : Externals) (prompt_wav prompt_text language : str)
    (s : state) (l : nat) :
  settled prompt_wav prompt_text language l s ->
  request E' prompt_wav prompt_text language s = (Ok l, s).
Proof.
  intros ((older & Hitems & Hk) & Ht & Hl & Hi).
  assert (Hlook : lookup prompt_wav (_prompt_cache s) = Some l)
    by (eapply lookup_items_last; eassumption).
  assert (Hsame : refreshed prompt_wav l s = s).
  { unfold refreshed. rewrite Hitems, without_app_last by exact Hk.
    rewrite <- Hitems. destruct s as [h n [cap its] hub cs]. reflexivity. }
  rewrite request_run, (new_present E' _ _ _ _ _ Hlook), Ht, Hl, Hsame.
  rewrite (proj2 (str_eqb_eq prompt_text prompt_text) eq_refl).
  rewrite bool_decide_eq_true_2 by reflexivity. cbn [negb orb].
  rewrite init_initialized by exact Hi. reflexivity.
Qed.


Section Claims.
Variable E : Externals.

(** C4: a request that returns, made again with the same path, text and
    language, returns the same object and leaves the whole state as it
    was: no object, no cache order and no attribute changes, and no
    collaborator is called, whatever the collaborators would answer. The
    cache holds at least one entry. *)
Theorem same_request_twice (E' : Externals)
    (prompt_wav prompt_text language : str) (s s1 : state) (l : nat) :
  (1 <= capacity (_prompt_cache s))%nat ->
  request E prompt_wav prompt_text language s = (Ok l, s1) ->
  request E' prompt_wav prompt_text language s1 = (Ok l, s1).
Proof.
  intros Hcap H. apply settled_request.
  eapply request_settles; eassumption.
Qed.


(** C2, as the code has it: when the phonemization of an in-place update
    raises, the request raises, and the cached object keeps its phoneme
    ids, its semantic features and its audio attributes, while its text
    and its language are already the new ones. *)
Theorem failed_update (prompt_wav prompt_text language old : str)
    (s : state) (l : nat) (e : object) (exc : exn) :
  lookup prompt_wav (_prompt_cache s) = Some l ->
  heap s !! l = Some e ->
  text e = Some old ->
  old <> prompt_text \/ ReferenceAudio.language e <> Some language ->
  phones_of E language prompt_text = Raise exc ->
  exists s',
    request E prompt_wav prompt_text language s = (Raise exc, s')
    /\ heap s'
       = <[l := {| text := Some prompt_text;
                   phonemes_seq := phonemes_seq e;
                   text_bert := text_bert e;
                   ReferenceAudio.language := Some language;
                   audio_32k := audio_32k e;
                   ssl_content := ssl_content e;
                   _initialized := _initialized e |}]> (heap s)
    /\ calls s' = calls s ++ [phones_call language prompt_text].
Proof.
  intros Hlook He Ht Hchg Hph.
  assert (Hobj : obj l s = e) by (unfold obj; rewrite He; reflexivity).
  rewrite request_run, (new_present E _ _ _ _ _ Hlook), Hobj, Ht.
  assert (Hc : (negb (str_eqb old prompt_text)
                || negb (bool_decide (ReferenceAudio.language e = Some language)))%bool
               = true).
  { apply orb_true_iff. destruct Hchg as [Hne|Hne].
    - left. apply negb_true_iff, str_eqb_neq, Hne.
    - right. apply negb_true_iff, bool_decide_eq_false, Hne. }
  rewrite Hc, set_text_run. cbv zeta. rewrite Hph.
  change (obj l (refreshed prompt_wav l s)) with (obj l s). rewrite Hobj.
  eexists. split; [reflexivity|]. split; reflexivity.
Qed.

(** C10, as the code has it: for a key that is not cached, [__new__] puts
    the bare object into the cache before any collaborator is called; when
    the initialization raises, the key stays mapped to that object, which
    has no [_initialized] flag. A later request for the key allocates
    nothing and finds the same object, and because the flag is missing it
    runs the initialization on it again: it calls the collaborators again,
    and when it returns, it returns that object initialized. The cache
    holds at least one entry. *)
Theorem failed_creation_is_retried (prompt_wav prompt_text language : str)
    (s s1 : state) (exc : exn) :
  (1 <= capacity (_prompt_cache s))%nat ->
  lookup prompt_wav (_prompt_cache s) = None ->
  request E prompt_wav prompt_text language s = (Raise exc, s1) ->
  let l := next_addr s in
  (__new__ E prompt_wav prompt_text language s = (Ok l, created prompt_wav s)
   /\ lookup prompt_wav (_prompt_cache (created prompt_wav s)) = Some l
   /\ obj l (created prompt_wav s) = bare
   /\ calls (created prompt_wav s) = calls s)
  /\ lookup prompt_wav (_prompt_cache s1) = Some l
  /\ _initialized (obj l s1) = None
  /\ forall (E' : Externals) (text' language' : str) (r : result nat) (s2 : state),
       request E' prompt_wav text' language' s1 = (r, s2) ->
       next_addr s2 = next_addr s1
       /\ lookup prompt_wav (_prompt_cache s2) = Some l
       /\ (exists c more, calls s2 = calls s1 ++ c :: more)
       /\ (forall l', r = Ok l' ->
             l' = l /\ _initialized (obj l s2) = Some true).
Proof.
  intros Hcap Hlook H. cbv zeta.
  assert (Hbare : obj (next_addr s) (created prompt_wav s) = bare).
  { unfold obj, created. cbn [heap]. rewrite lookup_insert_eq. reflexivity. }
  assert (Hcached : lookup prompt_wav (_prompt_cache (created prompt_wav s))
                    = Some (next_addr s)).
  { destruct (setitem_last prompt_wav (next_addr s) (_prompt_cache s) Hcap)
      as (older & Hitems & Hk).
    eapply lookup_items_last; [exact Hitems | exact Hk]. }
  rewrite request_run, (new_absent E _ _ _ _ Hlook) in H.
  destruct (__init__ E (next_addr s) prompt_wav prompt_text language
              (created prompt_wav s)) as [r1 s1'] eqn:Hinit.
  apply init_fresh in Hinit as (Hc & Hn & Ht & Hl & _ & Hflag);
    [|rewrite Hbare; reflexivity].
  destruct r1 as [[]|e]; [discriminate|]. injection H as -> ->.
  split; [|split; [|split]].
  - split; [apply new_absent, Hlook|]. split; [exact Hcached|].
    split; [exact Hbare | reflexivity].
  - rewrite Hc. exact Hcached.
  - exact Hflag.
  - intros E' text' language' r s2 H2.
    assert (Hlook1 : lookup prompt_wav (_prompt_cache s1) = Some (next_addr s))
      by (rewrite Hc; exact Hcached).
    rewrite request_run, (new_present E' _ _ _ _ _ Hlook1), Ht in H2.
    assert (Hretry : forall s0 r s2,
      _prompt_cache s0 = _prompt_cache (refreshed prompt_wav (next_addr s) s1) ->
      next_addr s0 = next_addr s1 ->
      _initialized (obj (next_addr s) s0) = None ->
      (exists more, calls s0 = calls s1 ++ more) ->
      (let (r1, s1) := __init__ E' (next_addr s) prompt_wav text' language' s0 in
       (match r1 with Ok _ => Ok (next_addr s) | Raise e => Raise e end, s1))
        = (r, s2) ->
      next_addr s2 = next_addr s1
      /\ lookup prompt_wav (_prompt_cache s2) = Some (next_addr s)
      /\ (exists c more, calls s2 = calls s1 ++ c :: more)
      /\ (forall l', r = Ok l' ->
            l' = next_addr s /\ _initialized (obj (next_addr s) s2) = Some true)).
    { intros s0 r' s2' Hc0 Hn0 Hi0 [more0 Hcalls0] Hrun.
      destruct (__init__ E' (next_addr s) prompt_wav text' language' s0)
        as [r1 s1''] eqn:Hinit2.
      apply init_fresh in Hinit2 as (Hc2 & Hn2 & _ & _ & [more2 Hcalls2] & Hfl2);
        [|exact Hi0].
      injection Hrun as <- <-.
      split; [congruence|]. split; [rewrite Hc2, Hc0; apply lookup_refreshed|].
      split.
      - rewrite Hcalls2, Hcalls0, <- app_assoc.
        destruct more0 as [|c0 more0]; cbn; eauto.
      - intros l' Hr. destruct r1 as [[]|e0]; [|discriminate].
        injection Hr as <-. split; [reflexivity | exact Hfl2]. }
    destruct (negb (str_eqb prompt_text text') || _)%bool.
    + destruct (set_text E' (next_addr s) text' language'
                  (refreshed prompt_wav (next_addr s) s1)) as [r0 s0] eqn:Hst.
      apply set_text_frame in Hst as (Hc0 & Hn0 & _ & _ & Hi0 & more0 & Hcalls0).
      destruct r0 as [[]|e0].
      * apply (Hretry s0 r s2); try assumption.
        -- rewrite Hi0. exact Hflag.
        -- eexists. exact Hcalls0.
      * injection H2 as <- <-.
        split; [exact Hn0|]. split; [rewrite Hc0; apply lookup_refreshed|].
        split; [eexists _, _; exact Hcalls0 | discriminate].
    + apply (Hretry (refreshed prompt_wav (next_addr s) s1) r s2);
        [reflexivity | reflexivity | exact Hflag
        | exists []; symmetry; apply app_nil_r | exact H2].
Qed.

End Claims.

(** [same_request_twice] on the first request of a process; the second
    request is made while the front-end is unavailable. *)
Lemma same_request_twice_witness :
  (1 <= capacity (_prompt_cache Fixtures.fresh))%nat
  /\ request Fixtures.working Fixtures.wav (u "ka") (u "ja") Fixtures.fresh
     = (Ok 0%nat, Fixtures.cached)
  /\ request Fixtures.no_front_end Fixtures.wav (u "ka") (u "ja") Fixtures.cached
     = (Ok 0%nat, Fixtures.cached).
Proof.
  assert (H : request Fixtures.working Fixtures.wav (u "ka") (u "ja") Fixtures.fresh
              = (Ok 0%nat, Fixtures.cached)) by (vm_compute; reflexivity).
  split; [cbn; lia|]. split; [exact H|].
  apply (same_request_twice Fixtures.working Fixtures.no_front_end _ _ _
           Fixtures.fresh _ _ ltac:(cbn; lia) H).
Defined.



(** [failed_update] on the cached entry while the front-end is
    unavailable. *)
Lemma failed_update_witness :
  lookup Fixtures.wav (_prompt_cache Fixtures.cached) = Some 0%nat
  /\ heap Fixtures.cached !! 0%nat = Some Fixtures.entry_ka
  /\ phones_of Fixtures.no_front_end (u "ja") (u "b")
     = Raise (CollaboratorFailure PyOpenJTalk)
  /\ exists s',
       request Fixtures.no_front_end Fixtures.wav (u "b") (u "ja") Fixtures.cached
         = (Raise (CollaboratorFailure PyOpenJTalk), s')
       /\ phonemes_seq (obj 0 s') = Some (Some [[2; 1]]%Z).
Proof.
  split; [reflexivity|]. split; [reflexivity|]. split; [reflexivity|].
  destruct (failed_update Fixtures.no_front_end Fixtures.wav (u "b") (u "ja")
              (u "ka") Fixtures.cached 0%nat Fixtures.entry_ka
              (CollaboratorFailure PyOpenJTalk) eq_refl eq_refl eq_refl
              ltac:(left; discriminate) eq_refl)
    as (s' & Hreq & Hheap & _).
  exists s'. split; [exact Hreq|].
  unfold obj. rewrite Hheap, lookup_insert_eq. reflexivity.
Defined.

(** C2, as the specification words it, fails: the phonemization of the
    update raises, and the text of the cached entry is no longer the one
    its phoneme ids were derived from. *)
Lemma failed_update_overwrites_text :
  phones_of Fixtures.no_front_end (u "ja") (u "b")
    = Raise (CollaboratorFailure PyOpenJTalk)
  /\ fst (request Fixtures.no_front_end Fixtures.wav (u "b") (u "ja")
            Fixtures.cached)
     = Raise (CollaboratorFailure PyOpenJTalk)
  /\ obj 0 Fixtures.cached = Fixtures.entry_ka
  /\ text (obj 0 (snd (request Fixtures.no_front_end Fixtures.wav (u "b")
                         (u "ja") Fixtures.cached)))
     = Some (u "b")
  /\ obj 0 (snd (request Fixtures.no_front_end Fixtures.wav (u "b") (u "ja")
                   Fixtures.cached))
     <> Fixtures.entry_ka.
Proof.
  split; [reflexivity|]. split; [vm_compute; reflexivity|].
  split; [reflexivity|]. split; [vm_compute; reflexivity|].
  vm_compute. discriminate.
Qed.

(** [failed_creation_is_retried] on a recording that cannot be read. *)
Lemma failed_creation_is_retried_witness :
  (1 <= capacity (_prompt_cache Fixtures.fresh))%nat
  /\ lookup Fixtures.wav (_prompt_cache Fixtures.fresh) = None
  /\ fst (request Fixtures.no_audio Fixtures.wav (u "ka") (u "ja") Fixtures.fresh)
     = Raise (CollaboratorFailure AudioLoader)
  /\ _initialized
       (obj 0 (snd (request Fixtures.no_audio Fixtures.wav (u "ka") (u "ja")
                      Fixtures.fresh))) = None.
Proof.
  split; [cbn; lia|]. split; [reflexivity|]. split; [vm_compute; reflexivity|].
  destruct (request Fixtures.no_audio Fixtures.wav (u "ka") (u "ja")
              Fixtures.fresh) as [r s1] eqn:Hreq.
  assert (Hr : r = Raise (CollaboratorFailure AudioLoader)).
  { change r with (fst (r, s1)). rewrite <- Hreq. vm_compute. reflexivity. }
  subst r.
  destruct (failed_creation_is_retried Fixtures.no_audio Fixtures.wav (u "ka")
              (u "ja") Fixtures.fresh s1 _ ltac:(cbn; lia) eq_refl Hreq)
    as (_ & _ & Hflag & _).
  exact Hflag.
Defined.

(** C10, as the specification words it, fails: after a creation that
    raised because the recording could not be read, a request for the same
    key does not return the uninitialized entry. While the recording is
    still unreadable it raises again; once the recording can be read it
    returns the same object, initialized. *)
Lemma failed_creation_is_not_returned_uninitialized :
  let first := request Fixtures.no_audio Fixtures.wav (u "ka") (u "ja")
                 Fixtures.fresh in
  fst first = Raise (CollaboratorFailure AudioLoader)
  /\ _initialized (obj 0 (snd first)) = None
  /\ fst (request Fixtures.no_audio Fixtures.wav (u "ka") (u "ja") (snd first))
     = Raise (CollaboratorFailure AudioLoader)
  /\ fst (request Fixtures.working Fixtures.wav (u "ka") (u "ja") (snd first))
     = Ok 0%nat
  /\ _initialized
       (obj 0 (snd (request Fixtures.working Fixtures.wav (u "ka") (u "ja")
                      (snd first)))) = Some true.
Proof. cbv zeta. repeat split; vm_compute; reflexivity. Qed.

End AudioFacts.

(* ===================================================================== *)
(** * More on sentence chunking                                            *)
(* ===================================================================== *)

Module SplitMore.
Import Split Shapes PyFacts SplitFacts.

Lemma valid_length_app (a b : str) :
  get_valid_text_length (a ++ b)
  = (get_valid_text_length a + get_valid_text_length b)%nat.
Proof.
  unfold get_valid_text_length, str. rewrite filter_app, length_app. reflexivity.
Qed.

(** A text of white space has only blank pieces. *)
Lemma blank_text_blank_pieces (pieces : list str) :
  forallb isspace (concat pieces) = true -> strip_nonblank pieces = [].
Proof.
  unfold strip_nonblank.
  induction pieces as [|p ps IH]; intros H; [reflexivity|].
  simpl in H. rewrite forallb_app in H. apply andb_true_iff in H as [Hp Hps].
  rewrite filter_cons. apply strip_nil_iff in Hp.
  rewrite decide_False by (rewrite Hp; discriminate).
  apply IH, Hps.
Qed.

Lemma merge_step_not_nil (acc : list str) (sentence : str) :
  merge_step acc sentence <> [].
Proof.
  unfold merge_step. destruct (truthy acc && _)%bool eqn:Hc.
  - destruct (last acc) eqn:Hl.
    + intros H. apply app_eq_nil in H as [_ H]. discriminate.
    + apply last_None in Hl. subst acc. discriminate.
  - intros H. apply app_eq_nil in H as [_ H]. discriminate.
Qed.

Lemma fold_merge_not_nil (l acc : list str) :
  l <> [] \/ acc <> [] -> fold_left merge_step l acc <> [].
Proof.
  revert acc. induction l as [|s l IH]; intros acc H; simpl.
  - destruct H; [contradiction | assumption].
  - apply IH. right. apply merge_step_not_nil.
Qed.

(** The function is the merge loop over the trimmed non-blank pieces: the
    two early returns add nothing to it. *)
Lemma split_chinese_text_fold (long_text : str) :
  split_chinese_text long_text
  = fold_left merge_step (strip_nonblank (re_split_after [] long_text)) [].
Proof.
  unfold split_chinese_text. destruct long_text as [|c r]; [reflexivity|].
  cbn [truthy negb].
  destruct (strip_nonblank (re_split_after [] (c :: r))) as [|s0 raw] eqn:Hraw;
    cbn [truthy negb]; [|reflexivity].
  pose proof (blank_pieces_blank_text _ Hraw) as Hb.
  rewrite re_split_after_concat in Hb. simpl in Hb. rewrite Hb. reflexivity.
Qed.

(** X: the chunking returns no chunk exactly for a text that is empty or
    all white space. *)
Theorem split_chinese_text_nil_iff (long_text : str) :
  split_chinese_text long_text = [] <-> forallb isspace long_text = true.
Proof.
  rewrite split_chinese_text_fold. split.
  - intros H.
    destruct (strip_nonblank (re_split_after [] long_text)) as [|s0 raw] eqn:Hraw.
    + apply blank_pieces_blank_text in Hraw.
      rewrite re_split_after_concat in Hraw. apply strip_nil_iff. exact Hraw.
    + exfalso. revert H. apply fold_merge_not_nil. left. discriminate.
  - intros H. rewrite blank_text_blank_pieces; [reflexivity|].
    rewrite re_split_after_concat. exact H.
Qed.

(** X: the fallback that returns the whole untrimmed text is never taken:
    every result is the merge loop run over the trimmed non-blank pieces,
    so it has at most as many chunks as there are such pieces. *)
Theorem split_chinese_text_is_merge_loop (long_text : str) :
  split_chinese_text long_text
  = fold_left merge_step (strip_nonblank (re_split_after [] long_text)) []
  /\ (length (split_chinese_text long_text)
      <= length (strip_nonblank (re_split_after [] long_text)))%nat.
Proof.
  split; [apply split_chinese_text_fold|].
  rewrite split_chinese_text_fold.
  assert (H : forall l acc,
            (length (fold_left merge_step l acc) <= length acc + length l)%nat).
  { induction l as [|s l IH]; intros acc; simpl; [lia|].
    etransitivity; [apply IH|].
    assert (length (merge_step acc s) <= S (length acc))%nat; [|lia].
    unfold merge_step. destruct (truthy acc && _)%bool.
    - destruct (last acc) eqn:Hl; [|lia].
      rewrite length_app. cbn [length].
      destruct acc as [|a acc]; [discriminate|].
      rewrite removelast_firstn_len, length_take. cbn [length]. lia.
    - rewrite length_app. cbn [length]. lia. }
  apply (H _ []).
Qed.

Lemma merge_step_tail_long (acc : list str) (sentence : str) :
  tail_long acc -> tail_long (merge_step acc sentence).
Proof.
  unfold tail_long, merge_step. intros H.
  destruct (truthy acc) eqn:Hacc; cbn [andb].
  - destruct (Nat.ltb_spec (get_valid_text_length sentence) MIN_SENTENCE_LENGTH)
      as [Hshort|Hlong].
    + destruct (last acc) as [prev|] eqn:Hl; [|exact H].
      rewrite <- (last_removelast acc prev Hl) in H.
      destruct (removelast acc) as [|a rest]; [constructor|].
      cbn [app drop] in *. rewrite drop_0 in *.
      apply Forall_app in H as [H1 H2]. apply Forall_app. split; [exact H1|].
      inversion H2; subst. constructor; [|constructor].
      rewrite valid_length_app. lia.
    + destruct acc as [|a rest]; [discriminate|].
      cbn [app drop] in *. rewrite drop_0 in *.
      apply Forall_app. split; [exact H|]. constructor; [exact Hlong|constructor].
  - destruct acc; [constructor | discriminate].
Qed.

(** X: after merging, every chunk but the first has at least
    [MIN_SENTENCE_LENGTH] valid characters (ideographs, ASCII letters and
    digits): a short sentence never stands alone unless it opens the
    text. *)
Theorem split_chinese_text_tail_long (long_text : str) :
  Forall (fun c => (MIN_SENTENCE_LENGTH <= get_valid_text_length c)%nat)
         (drop 1 (split_chinese_text long_text)).
Proof.
  rewrite split_chinese_text_fold.
  assert (H : forall l acc, tail_long acc -> tail_long (fold_left merge_step l acc)).
  { induction l as [|s l IH]; intros acc Hacc; simpl; [exact Hacc|].
    apply IH, merge_step_tail_long, Hacc. }
  apply (H _ []). constructor.
Qed.


Lemma lstrip_fixed (s : str) : lstrip (lstrip s) = lstrip s.
Proof.
  pose proof (lstrip_head s) as H.
  destruct (lstrip s) as [|c l]; [reflexivity|]. simpl. rewrite H. reflexivity.
Qed.

Lemma lstrip_cons_fixed (c : N) (l : str) :
  lstrip (c :: l) = c :: l -> isspace c = false.
Proof.
  intros H. pose proof (lstrip_head (c :: l)) as Hh. rewrite H in Hh. exact Hh.
Qed.

Lemma strip_trimmed (s : str) : trimmed (strip s).
Proof.
  unfold trimmed, strip, rstrip. rewrite rev_involutive. split.
  - pose proof (lstrip_head s) as Hh.
    destruct (lstrip s) as [|c r]; [reflexivity|].
    assert (Hlast : exists w, lstrip (rev (c :: r)) = w ++ [c]).
    { cbn [rev]. generalize (rev r). intros t.
      induction t as [|x t IH]; simpl.
      - rewrite Hh. exists []. reflexivity.
      - destruct (isspace x); [exact IH|]. exists (x :: t). reflexivity. }
    destruct Hlast as [w ->]. rewrite rev_app_distr. simpl.
    rewrite Hh. reflexivity.
  - apply lstrip_fixed.
Qed.

Lemma trimmed_strip (s : str) : trimmed s <-> strip s = s.
Proof.
  split.
  - intros [H1 H2]. unfold strip, rstrip. rewrite H1, H2. apply rev_involutive.
  - intros <-. apply strip_trimmed.
Qed.

Lemma trimmed_app (a b : str) :
  trimmed a -> trimmed b -> a <> [] -> b <> [] -> trimmed (a ++ b).
Proof.
  assert (Hl : forall x y : str, lstrip x = x -> x <> [] -> lstrip (x ++ y) = x ++ y).
  { intros x y Hx Hne. destruct x as [|c x]; [contradiction|].
    apply lstrip_cons_fixed in Hx. simpl. rewrite Hx. reflexivity. }
  intros [Ha1 Ha2] [Hb1 Hb2] Hna Hnb. split.
  - apply Hl; assumption.
  - rewrite rev_app_distr. apply Hl; [exact Hb2|].
    intros H. apply Hnb. rewrite <- (rev_involutive b), H. reflexivity.
Qed.

Lemma merge_step_trimmed (acc : list str) (sentence : str) :
  Forall (fun c => trimmed c /\ c <> []) acc ->
  trimmed sentence -> sentence <> [] ->
  Forall (fun c => trimmed c /\ c <> []) (merge_step acc sentence).
Proof.
  intros Hacc Ht Hne. unfold merge_step.
  destruct (truthy acc && _)%bool.
  - destruct (last acc) as [prev|] eqn:Hl; [|exact Hacc].
    rewrite <- (last_removelast acc prev Hl) in Hacc.
    apply Forall_app in Hacc as [H1 H2]. apply Forall_app. split; [exact H1|].
    inversion H2 as [|? ? [Hp Hpn] _]; subst.
    constructor; [|constructor]. split; [apply trimmed_app; assumption|].
    intros H. apply app_eq_nil in H as [_ H]. contradiction.
  - apply Forall_app. split; [exact Hacc|]. constructor; [tauto | constructor].
Qed.

(** X: no chunk starts or ends with white space. *)
Theorem split_chinese_text_trimmed (long_text : str) :
  Forall (fun chunk => strip chunk = chunk) (split_chinese_text long_text).
Proof.
  rewrite split_chinese_text_fold.
  assert (Hraw : Forall (fun c => trimmed c /\ c <> [])
                   (strip_nonblank (re_split_after [] long_text))).
  { unfold strip_nonblank. apply Forall_forall. intros c Hc.
    apply list_elem_of_fmap in Hc as (p & -> & Hp).
    apply list_elem_of_filter in Hp as [Hp _].
    split; [apply strip_trimmed | apply truthy_true_iff, Hp]. }
  assert (H : forall l acc,
            Forall (fun c => trimmed c /\ c <> []) acc ->
            Forall (fun c => trimmed c /\ c <> []) l ->
            Forall (fun c => trimmed c /\ c <> []) (fold_left merge_step l acc)).
  { induction l as [|s l IH]; intros acc Hacc Hl; simpl; [exact Hacc|].
    inversion Hl as [|? ? [Hs Hsn] Hl']; subst.
    apply IH; [|exact Hl']. apply merge_step_trimmed; assumption. }
  eapply Forall_impl; [apply (H _ []); [constructor | exact Hraw]|].
  intros c [Hc _]. apply trimmed_strip, Hc.
Qed.

Lemma re_split_after_pieces (s : str) :
  forall cur, no_terminator cur = true ->
  exists init final,
    re_split_after cur s = init ++ [final]
    /\ Forall terminated init /\ no_terminator final = true.
Proof.
  induction s as [|c r IH]; intros cur Hcur; cbn [re_split_after].
  - exists [], cur. split; [reflexivity|]. split; [constructor | exact Hcur].
  - destruct (is_terminator c) eqn:Hc.
    + destruct (IH [] eq_refl) as (init & final & -> & Hinit & Hfinal).
      exists ((cur ++ [c]) :: init), final. split; [reflexivity|].
      split; [|exact Hfinal]. constructor; [|exact Hinit].
      exists cur, c. repeat split; assumption.
    + apply IH. unfold no_terminator in *. rewrite forallb_app, Hcur. simpl.
      rewrite Hc. reflexivity.
Qed.

(** X: the regular-expression split keeps every terminator at the end of
    its piece: each piece but the last ends with a terminator and has no
    other, and the last piece has none. *)
Theorem split_keeps_terminators (long_text : str) :
  exists init final,
    re_split_after [] long_text = init ++ [final]
    /\ Forall terminated init /\ no_terminator final = true.
Proof. apply re_split_after_pieces. reflexivity. Qed.

End SplitMore.

(* ===================================================================== *)
(** * More on normalization                                                *)
(* ===================================================================== *)

Module NormalizeMore.
Import JapaneseG2P Shapes PyFacts.

Lemma collapse_head (r : str) :
  forall c, exists t, collapse_punctuation (c :: r) = c :: t.
Proof.
  induction r as [|d r IH]; intros c; cbn [collapse_punctuation].
  - exists []. reflexivity.
  - destruct (is_repeatable_punctuation c && (c =? d))%bool eqn:Hc.
    + apply andb_true_iff in Hc as [_ Hc]. apply N.eqb_eq in Hc as ->. apply IH.
    + eexists. reflexivity.
Qed.

Lemma collapse_fixed (s : str) :
  no_repeat s = true -> collapse_punctuation s = s.
Proof.
  induction s as [|c r IH]; [reflexivity|].
  cbn [no_repeat collapse_punctuation]. destruct r as [|d r]; [reflexivity|].
  intros H. apply andb_true_iff in H as [Hc Hr].
  apply negb_true_iff in Hc. rewrite Hc, IH by exact Hr. reflexivity.
Qed.

Lemma collapse_no_repeat (s : str) : no_repeat (collapse_punctuation s) = true.
Proof.
  induction s as [|c r IH]; [reflexivity|].
  cbn [collapse_punctuation]. destruct r as [|d r]; [reflexivity|].
  destruct (is_repeatable_punctuation c && (c =? d))%bool eqn:Hc; [exact IH|].
  destruct (collapse_head r d) as [t Ht]. rewrite Ht in *.
  change (no_repeat (c :: d :: t))
    with (negb (is_repeatable_punctuation c && (c =? d)) && no_repeat (d :: t))%bool.
  rewrite Hc, IH. reflexivity.
Qed.

(** X: after the collapse no character of [,./?!~] (or the ellipsis or the
    middle dot) is followed by itself; a text that has no such pair is left
    as it is, so collapsing twice is collapsing once; and what is left is
    the text with characters removed, in order. *)
Theorem collapse_punctuation_normal (text : str) :
  no_repeat (collapse_punctuation text) = true
  /\ (no_repeat text = true -> collapse_punctuation text = text)
  /\ collapse_punctuation (collapse_punctuation text) = collapse_punctuation text
  /\ sublist (collapse_punctuation text) text.
Proof.
  split; [apply collapse_no_repeat|]. split; [apply collapse_fixed|].
  split; [apply collapse_fixed, collapse_no_repeat|].
  induction text as [|c r IH]; [constructor|].
  cbn [collapse_punctuation]. destruct r as [|d r]; [reflexivity|].
  destruct (is_repeatable_punctuation c && (c =? d))%bool.
  - apply sublist_cons, IH.
  - apply sublist_skip, IH.
Qed.

(** The replacement of a symbol, case by case. *)
Lemma post_replace_cases (ph : str) :
  (ph ∈ REPLACED
   /\ _post_replace_phoneme ph ∈ [u ","; u "."; u "!"; u "?"; [0x2026]])
  \/ ((ph ∉ REPLACED) /\ _post_replace_phoneme ph = ph).
Proof.
  unfold _post_replace_phoneme, REPLACED. cbn [find fst snd].
  repeat match goal with
  | |- context [str_eqb ?k ph] =>
      let H := fresh "Hkey" in
      destruct (str_eqb k ph) eqn:H;
        [apply str_eqb_eq in H; subst ph; left; split;
           [apply (bool_decide_unpack _); vm_compute; exact I
           |apply (bool_decide_unpack _); vm_compute; exact I]
        |apply str_eqb_neq in H]
  end.
  right. split; [|reflexivity].
  repeat (apply not_elem_of_cons; split; [congruence|]).
  apply not_elem_of_nil.
Qed.

Lemma post_replace_not_replaced (ph : str) :
  _post_replace_phoneme ph ∉ REPLACED.
Proof.
  destruct (post_replace_cases ph) as [[_ H]|[H ->]]; [|exact H].
  intros Hin. revert H.
  generalize dependent (_post_replace_phoneme ph). intros v Hin Hv.
  repeat (apply elem_of_cons in Hv as [->|Hv];
          [revert Hin; apply (bool_decide_unpack _); vm_compute; exact I|]).
  inversion Hv.
Qed.

Lemma post_replace_nonempty (ph : str) :
  ph <> [] -> _post_replace_phoneme ph <> [].
Proof.
  intros Hne. destruct (post_replace_cases ph) as [[_ H]|[_ ->]]; [|exact Hne].
  intros Heq. rewrite Heq in H.
  revert H. apply (bool_decide_unpack _). vm_compute. exact I.
Qed.

(** X: the post-normalization of a symbol never yields one of the symbols
    it replaces, leaves every other symbol as it is, and is idempotent. *)
Theorem post_replace_normal (ph : str) :
  (_post_replace_phoneme ph ∉ REPLACED)
  /\ (ph ∉ REPLACED -> _post_replace_phoneme ph = ph)
  /\ _post_replace_phoneme (_post_replace_phoneme ph) = _post_replace_phoneme ph.
Proof.
  assert (Hfix : forall q, q ∉ REPLACED -> _post_replace_phoneme q = q).
  { intros q Hq. destruct (post_replace_cases q) as [[H _]|[_ H]];
      [contradiction | exact H]. }
  split; [apply post_replace_not_replaced|]. split; [apply Hfix|].
  apply Hfix, post_replace_not_replaced.
Qed.

End NormalizeMore.

(* ===================================================================== *)
(** * More on the phonemizers                                              *)
(* ===================================================================== *)

Module PhonemizerMore.
Import PyUnicode JapaneseG2P Shapes PyFacts FeatureFacts ProsodyFacts
  NormalizeMore.

Lemma marker_symbols (p3 : str) (a1 a2 a3 f1 a2_next : Z) :
  Forall (fun x => x <> u "sil" /\ x <> u "pau")
         (boundary_marker p3 a1 a2 a3 f1 a2_next).
Proof.
  unfold boundary_marker.
  repeat case_match; repeat constructor; discriminate.
Qed.

Section WithExternals.
Variable E : Externals.

(** X: a text that is empty or all white space has no phones and no ids:
    both phonemizers return the empty sequence without consulting a
    collaborator or the symbol table. *)
Theorem blank_text_no_phones (text : str) (with_prosody : bool) :
  forallb isspace text = true ->
  g2p E text with_prosody = Ok []
  /\ japanese_to_phones E text = Ok []
  /\ ChineseG2P.g2p E text = Ok []
  /\ ChineseG2P.chinese_to_phones E text = Ok [].
Proof.
  intros H. apply strip_nil_iff in H.
  assert (Hj : forall wp, g2p E text wp = Ok [])
    by (intros wp; unfold g2p; rewrite H; reflexivity).
  assert (Hc : ChineseG2P.g2p E text = Ok [])
    by (unfold ChineseG2P.g2p; rewrite H; reflexivity).
  split; [apply Hj|]. split; [unfold japanese_to_phones; rewrite Hj; reflexivity|].
  split; [exact Hc|]. unfold ChineseG2P.chinese_to_phones. rewrite Hc. reflexivity.
Qed.

(** What one label appends: at most two symbols, none of them the silence
    or the pause phone. *)
Lemma label_phones_symbols (len n : nat) (lab lab_next : str) (ph : list str) :
  label_phones E len n lab lab_next = Ok ph ->
  (length ph <= 2)%nat /\ Forall (fun x => x <> u "sil" /\ x <> u "pau") ph.
Proof.
  unfold label_phones.
  destruct (label_phone E lab) as [p3|e]; [|discriminate].
  cbn [mbind result_bind].
  destruct (str_eqb p3 (u "sil")) eqn:Hsil.
  - destruct (n =? 0)%nat.
    { intros [= <-]. split; [simpl; lia|]. repeat constructor; discriminate. }
    destruct (n =? len - 1)%nat.
    + destruct (_numeric_feature_by_regex E (RE_E3 E) lab) as [e3|e];
        [|discriminate].
      cbn [mbind result_bind]. intros [= <-]. split; [simpl; lia|].
      destruct (e3 =? 1)%Z; repeat constructor; discriminate.
    + intros [= <-]. split; [simpl; lia | constructor].
  - destruct (str_eqb p3 (u "pau")) eqn:Hpau.
    { intros [= <-]. split; [simpl; lia|]. repeat constructor; discriminate. }
    apply str_eqb_neq in Hsil, Hpau.
    destruct (_numeric_feature_by_regex E RE_A1 lab) as [a1|e]; [|discriminate].
    destruct (_numeric_feature_by_regex E (RE_A2 E) lab) as [a2|e]; [|discriminate].
    destruct (_numeric_feature_by_regex E (RE_A3 E) lab) as [a3|e]; [|discriminate].
    destruct (_numeric_feature_by_regex E (RE_F1 E) lab) as [f1|e]; [|discriminate].
    destruct (_numeric_feature_by_regex E (RE_A2 E) lab_next) as [a2n|e];
      [|discriminate].
    cbn [mbind result_bind]. intros [= <-]. split.
    + cbn [length]. pose proof (boundary_marker_length p3 a1 a2 a3 f1 a2n). lia.
    + constructor; [split; assumption | apply marker_symbols].
Qed.

(** X: the label-based derivation never emits the silence phone or the
    pause phone as a symbol, and emits at most two symbols per label. *)
Theorem prosody_symbols (text : str) (labels phones : list str) :
  make_label E text = Ok labels ->
  _pyopenjtalk_g2p_prosody E text = Ok phones ->
  (u "sil" ∉ phones) /\ (u "pau" ∉ phones)
  /\ (length phones <= 2 * length labels)%nat.
Proof.
  intros Hlab Hpro. unfold _pyopenjtalk_g2p_prosody in Hpro.
  rewrite Hlab in Hpro. cbn [mbind result_bind] in Hpro.
  assert (H : forall ls n out, prosody_loop E (length labels) n ls = Ok out ->
            Forall (fun x => x <> u "sil" /\ x <> u "pau") out
            /\ (length out <= 2 * length ls)%nat).
  { induction ls as [|lab rest IH]; intros n out Hout.
    - injection Hout as <-. split; [constructor | simpl; lia].
    - cbn [prosody_loop] in Hout.
      destruct (label_phones E _ n lab _) as [ph|e] eqn:Hph; [|discriminate].
      cbn [mbind result_bind] in Hout.
      destruct (prosody_loop E _ (S n) rest) as [phs|e] eqn:Hphs; [|discriminate].
      injection Hout as <-.
      apply label_phones_symbols in Hph as [Hlen Hall].
      destruct (IH _ _ Hphs) as [Hall' Hlen'].
      split; [apply Forall_app; split; assumption|].
      rewrite length_app. cbn [length]. lia. }
  destruct (H _ _ _ Hpro) as [Hall Hlen].
  rewrite Forall_forall in Hall.
  split; [intros Hin; apply (proj1 (Hall _ Hin)); reflexivity|].
  split; [intros Hin; apply (proj2 (Hall _ Hin)); reflexivity | exact Hlen].
Qed.

(** X: when the first and the last label of a stream of two or more labels
    are silences, the derivation is the start marker, the symbols of the
    labels in between, and the end marker chosen by the end-tone feature of
    the last label; the phones of the segment are exactly the symbols in
    between. *)
Theorem framed_stream (text first last : str) (middle phones : list str) :
  make_label E text = Ok (first :: middle ++ [last]) ->
  label_phone E first = Ok (u "sil") ->
  label_phone E last = Ok (u "sil") ->
  _pyopenjtalk_g2p_prosody E text = Ok phones ->
  exists inner e3,
    _numeric_feature_by_regex E (RE_E3 E) last = Ok e3
    /\ phones = u "^" :: inner ++ [if (e3 =? 1)%Z then u "?" else u "$"]
    /\ segment_phones E true text = Ok inner.
Proof.
  intros Hlab Hfirst Hlast Hpro.
  assert (Hpro' := Hpro). unfold _pyopenjtalk_g2p_prosody in Hpro'.
  rewrite Hlab in Hpro'. cbn [mbind result_bind] in Hpro'.
  destruct (prosody_loop_parts E _ _ _ _ Hpro') as (parts & -> & Hlen & Hparts).
  set (labels := first :: middle ++ [last]) in *.
  destruct parts as [|p0 rest]; [discriminate|].
  destruct (decide (rest = [])) as [->|Hne];
    [|destruct (exists_last Hne) as (pm & pl & ->)].
  { unfold labels in Hlen. cbn [length] in Hlen. rewrite length_app in Hlen.
    cbn [length] in Hlen. lia. }
  assert (Hmid : length pm = length middle).
  { unfold labels in Hlen. cbn [length] in Hlen. rewrite !length_app in Hlen.
    cbn [length] in Hlen. lia. }
  destruct (Hparts 0%nat first eq_refl) as (part0 & Hp0 & Hl0).
  injection Hp0 as <-.
  destruct (silence_label_phones E (length labels) (0 + 0) first
              (default [] (labels !! 1%nat)) Hfirst) as (e0 & _ & Hs0).
  rewrite Hs0 in Hl0. injection Hl0 as <-.
  assert (Hidx : labels !! S (length middle) = Some last).
  { unfold labels. cbn [lookup list_lookup]. apply list_lookup_middle. reflexivity. }
  destruct (Hparts _ last Hidx) as (partl & Hpl & Hll).
  rewrite app_comm_cons, <- Hmid, list_lookup_middle in Hpl by reflexivity.
  injection Hpl as <-.
  destruct (silence_label_phones E (length labels) (0 + S (length middle)) last
              (default [] (labels !! S (S (length middle)))) Hlast)
    as (e3 & He3 & Hsl).
  rewrite Hsl in Hll.
  assert (Hn : (0 + S (length middle) =? length labels - 1)%nat = true).
  { apply Nat.eqb_eq. unfold labels. cbn [length]. rewrite length_app.
    cbn [length]. lia. }
  change (0 + S (length middle))%nat with (S (length middle)) in Hll, Hn.
  assert (Hz : (S (length middle) =? 0)%nat = false) by reflexivity.
  rewrite Hz, Hn in Hll. injection Hll as <-.
  exists (concat pm), e3. split; [exact He3|].
  assert (Hshape : concat ([u "^"] :: pm
                           ++ [[if (e3 =? 1)%Z then u "?" else u "$"]])
                   = u "^" :: concat pm ++ [if (e3 =? 1)%Z then u "?" else u "$"]).
  { cbn [concat app]. rewrite concat_app. cbn [concat].
    rewrite app_nil_r. reflexivity. }
  split; [exact Hshape|].
  unfold segment_phones. rewrite Hpro. unfold fmap, result_fmap. f_equal.
  etransitivity;
    [|apply (slice_1_m1_inner (u "^") (if (e3 =? 1)%Z then u "?" else u "$")
               (concat pm))].
  f_equal. exact Hshape.
Qed.

(** X: in the Japanese path, no symbol that [g2p] returns is one of the
    symbols the post-normalization replaces (full-width punctuation, the
    newline, the three-dot ellipsis). *)
Theorem g2p_symbols_normalized (text : str) (with_prosody : bool)
    (phonemes : list str) :
  is_chinese text = false ->
  g2p E text with_prosody = Ok phonemes ->
  Forall (fun ph => ph ∉ REPLACED) phonemes.
Proof.
  intros Hzh. unfold g2p. rewrite Hzh.
  destruct (negb (truthy (strip text))); [intros [= <-]; constructor|].
  destruct (g2p_loop E with_prosody _ 0 _) as [raw|e]; [|discriminate].
  cbn [mbind result_bind]. intros [= <-].
  apply Forall_forall. intros ph Hin.
  apply list_elem_of_fmap in Hin as (q & -> & _).
  apply post_replace_not_replaced.
Qed.

End WithExternals.

(** [blank_text_no_phones] on a text of spaces, with every collaborator
    down. *)
Lemma blank_text_no_phones_witness :
  forallb isspace (u "   ") = true
  /\ japanese_to_phones Fixtures.no_front_end (u "   ") = Ok [].
Proof.
  split; [reflexivity|].
  apply (blank_text_no_phones Fixtures.no_front_end (u "   ") true eq_refl).
Defined.

(** [prosody_symbols] on the worked utterance. *)
Lemma prosody_symbols_witness :
  make_label Fixtures.working (u "ka") = Ok Fixtures.labels
  /\ _pyopenjtalk_g2p_prosody Fixtures.working (u "ka")
     = Ok [u "^"; u "k"; u "a"; u "$"]
  /\ (length [u "^"; u "k"; u "a"; u "$"] <= 2 * length Fixtures.labels)%nat.
Proof.
  split; [reflexivity|]. split; [reflexivity|].
  apply (prosody_symbols Fixtures.working (u "ka") Fixtures.labels
           [u "^"; u "k"; u "a"; u "$"] eq_refl eq_refl).
Defined.

(** [framed_stream] on the worked utterance. *)
Lemma framed_stream_witness :
  make_label Fixtures.working (u "ka")
    = Ok (Fixtures.label_sil_first
          :: [Fixtures.label_k; Fixtures.label_a] ++ [Fixtures.label_sil_last])
  /\ label_phone Fixtures.working Fixtures.label_sil_first = Ok (u "sil")
  /\ label_phone Fixtures.working Fixtures.label_sil_last = Ok (u "sil")
  /\ exists inner,
       segment_phones Fixtures.working true (u "ka") = Ok inner.
Proof.
  split; [reflexivity|]. split; [reflexivity|]. split; [reflexivity|].
  destruct (framed_stream Fixtures.working (u "ka") Fixtures.label_sil_first
              Fixtures.label_sil_last [Fixtures.label_k; Fixtures.label_a]
              [u "^"; u "k"; u "a"; u "$"] eq_refl eq_refl eq_refl eq_refl)
    as (inner & e3 & _ & _ & H).
  exists inner. exact H.
Defined.

(** [g2p_symbols_normalized] on a kana text followed by a full-width
    comma. *)
Lemma g2p_symbols_normalized_witness :
  is_chinese [0x304B; 0xFF0C] = false
  /\ g2p Fixtures.working [0x304B; 0xFF0C] true = Ok [u "k"; u "a"; u ","]
  /\ Forall (fun ph => ph ∉ REPLACED) [u "k"; u "a"; u ","].
Proof.
  split; [reflexivity|]. split; [reflexivity|].
  apply (g2p_symbols_normalized Fixtures.working [0x304B; 0xFF0C] true
           [u "k"; u "a"; u ","] eq_refl eq_refl).
Defined.

End PhonemizerMore.

(* ===================================================================== *)
(** * More on the features, the syllables and the encoder                  *)
(* ===================================================================== *)

Module FrontEndMore.
Import PyUnicode JapaneseG2P Shapes PyFacts FeatureFacts NormalizeMore.

Lemma strip_prefix_Some (pre s rest : str) :
  strip_prefix pre s = Some rest -> s = pre ++ rest.
Proof.
  revert s. induction pre as [|x pre IH]; intros s; simpl.
  - intros [= ->]. reflexivity.
  - destruct s as [|y s]; [discriminate|].
    destruct (N.eqb_spec x y) as [->|_]; [|discriminate].
    intros H. rewrite (IH _ H). reflexivity.
Qed.

Lemma take_while_drop (p : N -> bool) (s : str) :
  take_while p s ++ drop (length (take_while p s)) s = s.
Proof.
  induction s as [|c r IH]; [reflexivity|].
  simpl. destruct (p c); simpl; [rewrite IH|]; reflexivity.
Qed.

Lemma match_here_sound (p : Re.pattern) (s g : str) :
  Re.match_here p s = Some g ->
  exists after, s = Re.pat_prefix p ++ g ++ Re.pat_term p :: after.
Proof.
  unfold Re.match_here.
  destruct (strip_prefix (Re.pat_prefix p) s) as [rest|] eqn:Hpre; [|discriminate].
  apply strip_prefix_Some in Hpre. subst s.
  pose proof (take_while_drop (Re.pat_class p) rest) as Hsplit.
  destruct (drop _ rest) as [|t tl]; [discriminate|].
  destruct (N.eqb_spec t (Re.pat_term p)) as [->|_]; [|discriminate].
  destruct (negb (Re.pat_plus p) || _)%bool; [|discriminate].
  cbn [andb]. intros [= <-]. exists tl. rewrite Hsplit. reflexivity.
Qed.

(** What [re.search] captures stands in the text between the prefix and
    the terminator of the pattern. *)
Lemma search_sound (p : Re.pattern) (s g : str) :
  Re.search p s = Some g ->
  exists before after,
    s = before ++ Re.pat_prefix p ++ g ++ Re.pat_term p :: after.
Proof.
  induction s as [|c r IH]; simpl.
  - destruct (Re.match_here p []) eqn:Hm; [|discriminate].
    intros [= <-]. apply match_here_sound in Hm as [after ->].
    exists [], after. reflexivity.
  - destruct (Re.match_here p (c :: r)) eqn:Hm.
    + intros [= <-]. apply match_here_sound in Hm as [after ->].
      exists [], after. reflexivity.
    + intros H. destruct (IH H) as (before & after & ->).
      exists (c :: before), after. reflexivity.
Qed.

Section WithExternals.
Variable E : Externals.

(** X: a feature read with a pattern whose group is a run of digits never
    raises. It is -50 when the label has no match, and otherwise the
    decimal value of a non-empty run of digits that stands in the label
    between the prefix and the terminator of the pattern, so a natural
    number. *)
Theorem digit_feature_value (p : Re.pattern) (lab : str) :
  digit_pattern E p ->
  exists v,
    _numeric_feature_by_regex E p lab = Ok v
    /\ ((Re.search p lab = None /\ v = (-50)%Z)
        \/ exists before g after,
             lab = before ++ Re.pat_prefix p ++ g ++ Re.pat_term p :: after
             /\ g <> [] /\ forallb (is_digit E) g = true
             /\ v = digits_value E g /\ (0 <= v)%Z).
Proof.
  intros [Hc Hp]. unfold _numeric_feature_by_regex.
  destruct (Re.search p lab) as [g|] eqn:Hs.
  - destruct (search_group _ _ _ Hs) as [Hall Hne]. rewrite Hc in Hall.
    destruct (search_sound _ _ _ Hs) as (before & after & Hlab).
    rewrite int_digits by auto. eexists. split; [reflexivity|]. right.
    exists before, g, after.
    repeat split; auto using digits_value_nonneg.
  - eexists. split; [reflexivity|]. left. split; reflexivity.
Qed.

Lemma class_A1_digits (ds : str) :
  forallb (Re.pat_class RE_A1) ds = true ->
  forallb (is_digit E) ds = negb (bool_decide (0x2D ∈ ds)).
Proof.
  induction ds as [|c ds IH]; [reflexivity|].
  cbn [forallb]. intros H. apply andb_true_iff in H as [Hc Hds].
  rewrite (IH Hds). cbn [RE_A1 Re.pat_class] in Hc.
  unfold is_digit, digit_value.
  destruct (is_ascii_digit c) eqn:Hd.
  - assert (c <> 0x2D) by (intros ->; discriminate).
    cbn [andb]. f_equal. apply bool_decide_ext.
    rewrite elem_of_cons. split; [tauto|]. intros [Heq|Hin]; [congruence | exact Hin].
  - cbn [orb] in Hc. apply N.eqb_eq in Hc as ->.
    rewrite (bool_decide_eq_true_2 (0x2D ∈ 0x2D :: ds)) by left. reflexivity.
Qed.

(** X: the accent feature read from the [/A:] field is -50 when the field
    is absent; when the field is there, reading it raises [ValueError]
    exactly when the captured run is a lone minus sign or has a minus sign
    after its first character, and otherwise gives the integer the run
    spells. *)
Theorem a1_feature_errors (lab : str) :
  match Re.search RE_A1 lab with
  | None => _numeric_feature_by_regex E RE_A1 lab = Ok (-50)%Z
  | Some g =>
      if bool_decide (g = [0x2D] \/ 0x2D ∈ drop 1 g)
      then _numeric_feature_by_regex E RE_A1 lab = Raise ValueError
      else _numeric_feature_by_regex E RE_A1 lab
           = Ok (if bool_decide (head g = Some 0x2D)
                 then (- digits_value E (drop 1 g))%Z
                 else digits_value E g)
  end.
Proof.
  unfold _numeric_feature_by_regex.
  destruct (Re.search RE_A1 lab) as [g|] eqn:Hs; [|reflexivity].
  destruct (search_group _ _ _ Hs) as [Hall Hne]. specialize (Hne eq_refl).
  destruct g as [|c ds]; [contradiction|].
  cbn [forallb] in Hall. apply andb_true_iff in Hall as [Hc Hds].
  pose proof (class_A1_digits ds Hds) as Hdig.
  unfold int. cbn [drop head]. rewrite drop_0.
  destruct (N.eqb_spec c 0x2D) as [->|Hne45].
  - rewrite Hdig. rewrite (bool_decide_eq_true_2 (Some 0x2D = Some 0x2D)) by reflexivity.
    destruct ds as [|d ds].
    + rewrite (bool_decide_eq_true_2 (_ \/ _)) by (left; reflexivity). reflexivity.
    + cbn [truthy andb].
      destruct (decide (0x2D ∈ d :: ds)) as [Hin|Hin].
      * rewrite (bool_decide_eq_true_2 (_ \/ _)) by (right; exact Hin).
        rewrite (bool_decide_eq_true_2 (0x2D ∈ d :: ds)) by exact Hin.
        reflexivity.
      * rewrite (bool_decide_eq_false_2 (_ \/ _))
          by (intros [H|H]; [discriminate | tauto]).
        rewrite (bool_decide_eq_false_2 (0x2D ∈ d :: ds)) by exact Hin.
        reflexivity.
  - rewrite (bool_decide_eq_false_2 (Some c = Some 0x2D)) by congruence.
    assert (Hcd : is_digit E c = true).
    { cbn [RE_A1 Re.pat_class] in Hc. apply orb_true_iff in Hc as [Hc|Hc].
      - unfold is_digit, digit_value. rewrite Hc. reflexivity.
      - apply N.eqb_eq in Hc. contradiction. }
    cbn [forallb]. rewrite Hcd, Hdig. cbn [andb].
    destruct (decide (0x2D ∈ ds)) as [Hin|Hin].
    + rewrite (bool_decide_eq_true_2 (_ \/ _)) by (right; exact Hin).
      rewrite (bool_decide_eq_true_2 (0x2D ∈ ds)) by exact Hin.
      reflexivity.
    + rewrite (bool_decide_eq_false_2 (_ \/ _))
        by (intros [H|H]; [congruence | tauto]).
      rewrite (bool_decide_eq_false_2 (0x2D ∈ ds)) by exact Hin.
      reflexivity.
Qed.



(** X: when the symbol table has no entry for ["UNK"], the encoding
    returns the table's ids when every symbol is in the table and raises
    [KeyError] as soon as one is not. *)
Theorem phones_to_ids_without_unk (phones : list str) :
  symbol_to_id_v2 E !! u "UNK" = None ->
  phones_to_ids E phones
  = if forallb (fun ph => bool_decide (is_Some (symbol_to_id_v2 E !! ph))) phones
    then Ok (map (fun ph => default 0%Z (symbol_to_id_v2 E !! ph)) phones)
    else Raise KeyError.
Proof.
  intros Hunk. unfold phones_to_ids.
  induction phones as [|ph phones IH]; [reflexivity|].
  cbn [map mapM_result forallb]. rewrite IH.
  destruct (symbol_to_id_v2 E !! ph) as [i|] eqn:Hph.
  - rewrite bool_decide_eq_true_2 by eauto. cbv beta iota. rewrite Hph.
    cbn [andb mbind result_bind].
    destruct (forallb _ phones); reflexivity.
  - rewrite bool_decide_eq_false_2 by apply is_Some_None.
    cbv beta iota. rewrite Hunk. reflexivity.
Qed.

End WithExternals.

(** [digit_feature_value] on the frame feature of a label. *)
Lemma digit_feature_value_witness :
  digit_pattern Fixtures.working (RE_F1 Fixtures.working)
  /\ exists v,
       _numeric_feature_by_regex Fixtures.working (RE_F1 Fixtures.working)
         Fixtures.label_k = Ok v.
Proof.
  split; [apply digit_pattern_F1|].
  destruct (digit_feature_value Fixtures.working (RE_F1 Fixtures.working)
              Fixtures.label_k (digit_pattern_F1 Fixtures.working))
    as (v & Hv & _).
  exists v. exact Hv.
Defined.

(** [phones_to_ids_without_unk] on a table of one symbol. *)
Lemma phones_to_ids_without_unk_witness :
  symbol_to_id_v2 Fixtures.bare_table !! u "UNK" = None
  /\ phones_to_ids Fixtures.bare_table [u "a"; u "zz"] = Raise KeyError
  /\ phones_to_ids Fixtures.bare_table [u "a"; u "a"] = Ok [1; 1]%Z.
Proof.
  split; [reflexivity|]. split.
  - rewrite (phones_to_ids_without_unk Fixtures.bare_table [u "a"; u "zz"] eq_refl).
    reflexivity.
  - rewrite (phones_to_ids_without_unk Fixtures.bare_table [u "a"; u "a"] eq_refl).
    reflexivity.
Defined.

End FrontEndMore.

(* ===================================================================== *)
(** * More on the Chinese phonemizer                                       *)
(* ===================================================================== *)

Module ChineseMore.
Import ChineseG2P Shapes PyFacts NormalizeMore.

Lemma split_runs_concat (cls : N -> bool) (s : str) :
  forall in_run cur, concat (Re.split_runs cls in_run cur s) = cur ++ s.
Proof.
  induction s as [|c r IH]; intros in_run cur; cbn [Re.split_runs].
  - destruct in_run; cbn; rewrite ?app_nil_r; reflexivity.
  - destruct (cls c), in_run; cbn [concat]; rewrite IH, <- ?app_assoc; reflexivity.
Qed.

Lemma split_runs_alternating (cls : N -> bool) (s : str) :
  forall (in_run : bool) (cur : str),
  (if in_run then cur <> [] /\ forallb cls cur = true
   else forallb (fun c => negb (cls c)) cur = true) ->
  alternating cls in_run (Re.split_runs cls in_run cur s).
Proof.
  induction s as [|c r IH]; intros in_run cur Hcur; cbn [Re.split_runs].
  - destruct in_run; cbn; tauto.
  - destruct (cls c) eqn:Hc, in_run; cbn [alternating negb].
    + apply IH. destruct Hcur as [Hne Hall]. split.
      * intros H. apply app_eq_nil in H as [_ H]. discriminate.
      * rewrite forallb_app, Hall. simpl. rewrite Hc. reflexivity.
    + split; [exact Hcur|]. apply (IH true). split; [discriminate|].
      simpl. rewrite Hc. reflexivity.
    + split; [exact Hcur|]. apply (IH false). simpl. rewrite Hc. reflexivity.
    + apply IH. rewrite forallb_app, Hcur. simpl. rewrite Hc. reflexivity.
Qed.

(** X: the split on punctuation loses nothing and alternates: the
    segments, read one after the other, are the text; the segments at even
    positions have no punctuation character, and those at odd positions
    are non-empty runs of punctuation characters. *)
Theorem punctuation_split (text : str) :
  concat (Re.split_runs is_punctuation false [] text) = text
  /\ alternating is_punctuation false (Re.split_runs is_punctuation false [] text).
Proof.
  split; [apply split_runs_concat | apply split_runs_alternating; reflexivity].
Qed.

Lemma split_runs_all (cls : N -> bool) (s : str) :
  forall cur, forallb cls s = true ->
  Re.split_runs cls true cur s = [cur ++ s; []].
Proof.
  induction s as [|c r IH]; intros cur H; cbn [Re.split_runs].
  - rewrite app_nil_r. reflexivity.
  - cbn [forallb] in H. apply andb_true_iff in H as [Hc Hr].
    rewrite Hc, IH by exact Hr. rewrite <- app_assoc. reflexivity.
Qed.

Section WithExternals.
Variable E : Externals.

(** X: a non-blank text made of punctuation characters only is one symbol:
    the text without the white space at its ends, post-normalized. The
    romanizer is not consulted. *)
Theorem punctuation_only (text : str) :
  strip text <> [] -> forallb is_punctuation text = true ->
  g2p E text = Ok [_post_replace_phoneme (strip text)].
Proof.
  intros Hnb Hall. unfold g2p.
  rewrite (proj2 (truthy_true_iff (strip text)) Hnb). cbn [negb].
  destruct text as [|c r]; [contradiction|].
  cbn [Re.split_runs]. cbn [forallb] in Hall.
  apply andb_true_iff in Hall as [Hc Hr]. rewrite Hc.
  rewrite split_runs_all by exact Hr. cbn [app mapM_result].
  unfold segment_phonemes at 1. cbn [truthy negb mbind result_bind].
  unfold segment_phonemes at 1. cbn [truthy negb].
  unfold fullmatch_punctuation. cbn [truthy forallb andb]. rewrite Hc, Hr.
  cbn [andb mbind result_bind]. unfold segment_phonemes.
  cbn [truthy negb mbind result_bind fmap result_fmap concat app map].
  rewrite filter_cons_True; [reflexivity|].
  apply truthy_true_iff. unfold _post_replace_phoneme.
  apply post_replace_nonempty, Hnb.
Qed.

(** X: no symbol that the Chinese phonemizer returns is empty, and none is
    one of the symbols the post-normalization replaces. *)
Theorem chinese_symbols_normalized (text : str) (phonemes : list str) :
  g2p E text = Ok phonemes ->
  Forall (fun ph => ph <> [] /\ (ph ∉ REPLACED)) phonemes.
Proof.
  unfold g2p. destruct (negb (truthy (strip text))); [intros [= <-]; constructor|].
  destruct (_ <$> mapM_result (segment_phonemes E) _) as [raw|e]; [|discriminate].
  cbn [mbind result_bind]. intros [= <-].
  apply Forall_forall. intros ph Hin.
  apply list_elem_of_filter in Hin as [Hne Hin].
  apply list_elem_of_fmap in Hin as (q & -> & _).
  split; [apply truthy_true_iff, Hne|].
  unfold _post_replace_phoneme. apply post_replace_not_replaced.
Qed.

End WithExternals.

(** [punctuation_only] on a full-width exclamation mark after a space,
    with the romanizer unable to answer. *)
Lemma punctuation_only_witness :
  strip [0x20; 0xFF01] <> []
  /\ forallb is_punctuation [0x20; 0xFF01] = true
  /\ g2p Fixtures.no_romanizer [0x20; 0xFF01] = Ok [u "!"].
Proof.
  split; [discriminate|]. split; [reflexivity|].
  rewrite (punctuation_only Fixtures.no_romanizer [0x20; 0xFF01]
             ltac:(discriminate) eq_refl).
  reflexivity.
Defined.

(** [chinese_symbols_normalized] on a romanized syllable and a full-width
    comma. *)
Lemma chinese_symbols_normalized_witness :
  g2p Fixtures.working [0x6F22; 0xFF0C] = Ok [u "h"; u "an4"; u ","]
  /\ Forall (fun ph => ph <> [] /\ (ph ∉ REPLACED)) [u "h"; u "an4"; u ","].
Proof.
  split; [reflexivity|].
  apply (chinese_symbols_normalized Fixtures.working [0x6F22; 0xFF0C]
           [u "h"; u "an4"; u ","] eq_refl).
Defined.

End ChineseMore.

(* ===================================================================== *)
(** * More on the reference-audio cache                                    *)
(* ===================================================================== *)

Module AudioMore.
Import LRUCacheDict ReferenceAudio Shapes PyFacts CacheFacts AudioFacts.

Lemma fit_rows_length (E : Externals) (n : nat) (features : matrix) :
  length (fit_rows E n features) = n.
Proof.
  unfold fit_rows. destruct (Nat.leb_spec n (length features)).
  - rewrite length_take. lia.
  - rewrite length_app, length_replicate. lia.
Qed.

Lemma obj_created_ne (k : str) (a : nat) (s : state) :
  a <> next_addr s -> obj a (created k s) = obj a s.
Proof.
  intros Hne. unfold obj, created. cbn [heap].
  rewrite lookup_insert_ne by congruence. reflexivity.
Qed.

Lemma lookup_without_ne {V} (k k' : str) (v : V) (l : list (str * V)) cap :
  k' <> k ->
  lookup k' {| capacity := cap; items := without k l ++ [(k, v)] |}
  = lookup k' {| capacity := cap; items := l |}.
Proof.
  intros Hne. unfold lookup, without. cbn [items]. f_equal.
  induction l as [|[k0 v0] l IH].
  - cbn. rewrite (proj2 (str_eqb_neq k k')) by congruence. reflexivity.
  - rewrite filter_cons. cbn [fst]. case_decide as Hk.
    + cbn [app find fst]. destruct (str_eqb k0 k'); [reflexivity | exact IH].
    + assert (k0 = k) by (destruct (decide (k0 = k)); tauto). subst k0.
      cbn [find fst].
      rewrite (proj2 (str_eqb_neq k k')) by congruence. exact IH.
Qed.

Lemma sublist_map {A B} (f : A -> B) (l1 l2 : list A) :
  sublist l1 l2 -> sublist (map f l1) (map f l2).
Proof. induction 1; cbn [map]; constructor; assumption. Qed.

Lemma without_NoDup {V} (k : str) (l : list (str * V)) :
  NoDup (map fst l) -> NoDup (map fst (without k l)).
Proof.
  intros H. refine (sublist_NoDup _ _ H _). apply sublist_map, sublist_filter.
Qed.

Lemma moved_NoDup {V} (k : str) (v : V) (l : list (str * V)) :
  NoDup (map fst l) -> NoDup (map fst (without k l ++ [(k, v)])).
Proof.
  intros H. rewrite map_app. apply NoDup_app. split; [apply without_NoDup, H|].
  split; [|apply NoDup_singleton].
  intros x Hx Hin. cbn in Hin. apply list_elem_of_singleton in Hin. subst x.
  exact (without_keys k l Hx).
Qed.

Lemma without_length {V} (k : str) (l : list (str * V)) :
  (length (without k l) <= length l)%nat.
Proof. apply length_filter. Qed.

Lemma without_length_present {V} (k : str) (l : list (str * V)) :
  k ∈ map fst l -> (length (without k l) < length l)%nat.
Proof.
  intros Hin. apply list_elem_of_fmap in Hin as ([k' v'] & -> & Hin).
  cbn [fst]. unfold without.
  induction l as [|kv l IH]; [inversion Hin|].
  rewrite filter_cons. apply elem_of_cons in Hin as [<-|Hin].
  - rewrite decide_False by (simpl; congruence).
    apply Nat.lt_succ_r, length_filter.
  - specialize (IH Hin). case_decide; simpl; lia.
Qed.

Lemma refreshed_ok (k : str) (l : nat) (s : state) :
  lookup k (_prompt_cache s) = Some l ->
  cache_ok (_prompt_cache s) -> cache_ok (_prompt_cache (refreshed k l s)).
Proof.
  intros Hl [Hnd Hlen]. unfold cache_ok, refreshed, keys. cbn [_prompt_cache with_cache items capacity].
  split; [apply moved_NoDup, Hnd|].
  rewrite length_app. cbn [length].
  assert (Hin : k ∈ keys (_prompt_cache s)).
  { apply contains_keys. unfold contains. rewrite Hl. reflexivity. }
  pose proof (without_length_present k _ Hin). lia.
Qed.

Lemma setitem_ok {V} (k : str) (v : V) (c : t V) :
  cache_ok c -> cache_ok (setitem k v c).
Proof.
  intros [Hnd Hlen]. unfold cache_ok, setitem, keys. cbn [items capacity].
  pose proof (moved_NoDup k v (items c) Hnd) as Hnd'.
  pose proof (without_length k (items c)) as Hw.
  destruct (Nat.ltb_spec (capacity c) (length (without k (items c) ++ [(k, v)])))
    as [Hlt|Hge].
  - split.
    + refine (sublist_NoDup _ _ Hnd' _). apply sublist_map, sublist_drop.
    + rewrite length_drop, length_app. cbn [length]. lia.
  - split; [exact Hnd' | exact Hge].
Qed.

Section WithExternals.
Variable E : Externals.

(** X: a request for a key that is not cached, with every collaborator
    answering, returns a new object that holds the text, the language, the
    phoneme ids, the semantic features, the loaded waveform and the first
    output of the audio encoder, and is marked initialized; the
    collaborators are called in the order phonemizer, text-embedding model
    (Chinese only), audio loader, resampler, encoder loader (only when the
    encoder is not loaded yet), encoder. *)
Theorem creation (prompt_wav prompt_text language : str) (s : state)
    (ids : list Z) (features : matrix) (audio audio_16k : list f32)
    (out : ndarray) (outs : list ndarray) :
  lookup prompt_wav (_prompt_cache s) = None ->
  phones_of E language prompt_text = Ok ids ->
  features_of E language prompt_text (length ids) = Ok features ->
  load_audio E prompt_wav = Ok audio ->
  soxr_resample E audio = Ok audio_16k ->
  (cn_hubert s = false -> load_cn_hubert E = Ok tt) ->
  cn_hubert_run E [audio_16k] = Ok (out :: outs) ->
  exists s',
    request E prompt_wav prompt_text language s = (Ok (next_addr s), s')
    /\ obj (next_addr s) s'
       = {| text := Some prompt_text;
            phonemes_seq := Some (Some [ids]);
            text_bert := Some (Some features);
            ReferenceAudio.language := Some language;
            audio_32k := Some audio;
            ssl_content := Some out;
            _initialized := Some true |}
    /\ next_addr s' = S (next_addr s)
    /\ cn_hubert s' = true
    /\ calls s'
       = calls s ++ phones_call language prompt_text
                 :: features_calls language prompt_text
                 ++ [LoadAudio prompt_wav; Resample]
                 ++ (if cn_hubert s then [] else [LoadCnHubert])
                 ++ [CnHubertRun].
Proof.
  intros Hlook Hph Hfe Hau Hre Hload Hrun.
  rewrite request_run, (new_absent E _ _ _ _ Hlook).
  assert (Hbare : obj (next_addr s) (created prompt_wav s) = bare).
  { unfold obj, created. cbn [heap]. rewrite lookup_insert_eq. reflexivity. }
  unfold __init__.
  unfold mbind at 1, M_bind at 1, read at 1. rewrite Hbare. cbn [_initialized bare].
  unfold mbind, M_bind, assign, mret, M_ret. normalize_state.
  rewrite set_text_run. cbv zeta. rewrite Hph, Hfe. normalize_state.
  unfold init_audio, mbind, M_bind, assign, invoke, ensure_cn_hubert, lift.
  rewrite Hau, Hre. normalize_state. unfold features_calls.
  destruct (cn_hubert s) eqn:Hflag.
  - destruct (str_eqb language (u "zh"));
      cbn [cn_hubert with_call put with_heap created]; rewrite Hflag, Hrun;
      normalize_state; (eexists; split; [reflexivity|]);
      rewrite obj_put_eq; (split; [reflexivity|]);
      cbn; rewrite <- ?app_assoc; repeat split; assumption.
  - rewrite (Hload eq_refl).
    destruct (str_eqb language (u "zh"));
      cbn [cn_hubert with_call put with_heap created]; rewrite Hflag, Hrun;
      normalize_state; (eexists; split; [reflexivity|]);
      rewrite obj_put_eq; (split; [reflexivity|]);
      cbn; rewrite <- ?app_assoc; repeat split.
Qed.

(** X: after [set_text] has returned, the semantic feature matrix of the
    object has exactly one row per phoneme id, and outside Chinese every
    row is the zero vector of [BERT_FEATURE_DIM] entries. *)
Theorem set_text_rows (self : nat) (prompt_text language : str) (s s' : state) :
  set_text E self prompt_text language s = (Ok tt, s') ->
  exists ids features,
    phonemes_seq (obj self s') = Some (Some [ids])
    /\ text_bert (obj self s') = Some (Some features)
    /\ length features = length ids
    /\ (language <> u "zh" ->
        Forall (fun row => row = replicate (BERT_FEATURE_DIM E) 0%Z) features).
Proof.
  rewrite set_text_run. cbv zeta.
  destruct (phones_of E language prompt_text) as [ids|e]; [|discriminate].
  destruct (features_of E language prompt_text (length ids)) as [features|e] eqn:Hfe;
    [|discriminate].
  intros [= <-]. exists ids, features. rewrite obj_put_eq.
  split; [reflexivity|]. split; [reflexivity|].
  unfold features_of in Hfe.
  destruct (str_eqb language (u "zh")) eqn:Hzh.
  - destruct (bert_last_hidden_state E prompt_text) as [hidden|e]; [|discriminate].
    injection Hfe as <-. split; [apply fit_rows_length|].
    intros Hne. apply str_eqb_eq in Hzh. contradiction.
  - injection Hfe as <-. split; [apply length_replicate|].
    intros _. apply Forall_forall. intros row Hrow.
    apply elem_of_replicate in Hrow as [-> _]. reflexivity.
Qed.

(** X: when the phonemization of [set_text] returns and the derivation of
    the semantic features raises, [set_text] raises, and the object is
    left with the new text, the new language and the new phoneme ids next
    to the semantic features it had before. *)
Theorem set_text_features_fail (self : nat) (prompt_text language : str)
    (s : state) (ids : list Z) (exc : exn) :
  phones_of E language prompt_text = Ok ids ->
  features_of E language prompt_text (length ids) = Raise exc ->
  exists s',
    set_text E self prompt_text language s = (Raise exc, s')
    /\ obj self s'
       = {| text := Some prompt_text;
            phonemes_seq := Some (Some [ids]);
            text_bert := text_bert (obj self s);
            ReferenceAudio.language := Some language;
            audio_32k := audio_32k (obj self s);
            ssl_content := ssl_content (obj self s);
            _initialized := _initialized (obj self s) |}.
Proof.
  intros Hph Hfe. rewrite set_text_run. cbv zeta. rewrite Hph, Hfe.
  eexists. split; [reflexivity|]. rewrite obj_put_eq. reflexivity.
Qed.


Lemma confined_refl (self : nat) (s : state) : confined self s s.
Proof.
  split; [reflexivity|]. split; [reflexivity|]. intros H. split; [exact H|].
  exists []. split; [symmetry; apply app_nil_r | apply not_elem_of_nil].
Qed.

Lemma confined_trans (self : nat) (s1 s2 s3 : state) :
  confined self s1 s2 -> confined self s2 s3 -> confined self s1 s3.
Proof.
  intros (Hc1 & Ho1 & Hh1) (Hc2 & Ho2 & Hh2).
  split; [congruence|]. split.
  - intros a Ha. rewrite (Ho2 a Ha). apply Ho1, Ha.
  - intros H. destruct (Hh1 H) as (H2 & m1 & Hm1 & Hn1).
    destruct (Hh2 H2) as (H3 & m2 & Hm2 & Hn2).
    split; [exact H3|]. exists (m1 ++ m2). split.
    + rewrite Hm2, Hm1, app_assoc. reflexivity.
    + intros Hin. apply elem_of_app in Hin as [Hin|Hin]; contradiction.
Qed.

Lemma confined_put (self : nat) (o : object) (s : state) :
  confined self s (put self o s).
Proof.
  split; [reflexivity|]. split; [intros a Ha; apply obj_put_ne; congruence|].
  intros H. split; [exact H|].
  exists []. split; [symmetry; apply app_nil_r | apply not_elem_of_nil].
Qed.

Lemma confined_call (self : nat) (c : call) (s : state) :
  c <> LoadCnHubert -> confined self s (with_call c s).
Proof.
  intros Hc. split; [reflexivity|]. split; [reflexivity|].
  intros H. split; [exact H|]. exists [c]. split; [reflexivity|].
  intros Hin. apply list_elem_of_singleton in Hin. congruence.
Qed.

Lemma phones_call_not_load (language prompt_text : str) :
  phones_call language prompt_text <> LoadCnHubert.
Proof. unfold phones_call. destruct (str_eqb language (u "zh")); discriminate. Qed.

Lemma set_text_confined (self : nat) (prompt_text language : str)
    (s s' : state) (r : result unit) :
  set_text E self prompt_text language s = (r, s') -> confined self s s'.
Proof.
  rewrite set_text_run. cbv zeta. intros H.
  assert (H0 : confined self s (with_call (phones_call language prompt_text) s))
    by apply confined_call, phones_call_not_load.
  assert (H1 : confined self s
                 (if str_eqb language (u "zh")
                  then with_call (BertFeatures prompt_text)
                         (with_call (phones_call language prompt_text) s)
                  else with_call (phones_call language prompt_text) s)).
  { destruct (str_eqb language (u "zh")); [|exact H0].
    eapply confined_trans; [exact H0|]. apply confined_call. discriminate. }
  destruct (phones_of E language prompt_text) as [ids|e].
  - destruct (features_of E language prompt_text (length ids)) as [features|e];
      injection H as <- <-;
      (eapply confined_trans; [exact H1 | apply confined_put]).
  - injection H as <- <-.
    eapply confined_trans; [exact H0 | apply confined_put].
Qed.

Lemma init_audio_confined (self : nat) (prompt_wav : str)
    (s s' : state) (r : result unit) :
  init_audio E self prompt_wav s = (r, s') -> confined self s s'.
Proof.
  intros H. unfold init_audio in H.
  unfold mbind, M_bind, assign, invoke, ensure_cn_hubert, lift in H.
  assert (Ha : confined self s (with_call (LoadAudio prompt_wav) s))
    by (apply confined_call; discriminate).
  destruct (load_audio E prompt_wav) as [audio|e];
    [|injection H as <- <-; exact Ha].
  assert (Hb : confined self s
                 (with_call Resample
                    (put self (set_audio_32k audio
                                 (obj self (with_call (LoadAudio prompt_wav) s)))
                       (with_call (LoadAudio prompt_wav) s)))).
  { eapply confined_trans; [exact Ha|].
    eapply confined_trans; [apply confined_put|].
    apply confined_call. discriminate. }
  destruct (soxr_resample E audio) as [audio_16k|e];
    [|injection H as <- <-; exact Hb].
  set (s1 := with_call Resample _) in *.
  assert (Hc : forall s2, confined self s s2 ->
            forall r' s3,
            (match cn_hubert_run E [audio_16k] with
             | Ok a0 =>
                 match a0 with
                 | [] => fun s => (Raise IndexError, s)
                 | out :: _ =>
                     fun s =>
                       (Ok tt,
                        put self
                          (set_initialized true
                             (obj self (put self (set_ssl_content out (obj self s)) s)))
                          (put self (set_ssl_content out (obj self s)) s))
                 end (with_call CnHubertRun s2)
             | Raise e => (Raise e, with_call CnHubertRun s2)
             end) = (r', s3) -> confined self s s3).
  { intros s2 H2 r' s3 Hrun.
    assert (H3 : confined self s (with_call CnHubertRun s2)).
    { eapply confined_trans; [exact H2|]. apply confined_call. discriminate. }
    destruct (cn_hubert_run E [audio_16k]) as [[|out outs]|e];
      injection Hrun as <- <-; try exact H3.
    eapply confined_trans; [exact H3|].
    eapply confined_trans; apply confined_put. }
  destruct (cn_hubert s1) eqn:Hflag.
  - apply (Hc s1 Hb r s'). exact H.
  - assert (Hnot : cn_hubert s = false).
    { destruct (cn_hubert s) eqn:Hs; [|reflexivity].
      destruct Hb as (_ & _ & Hh). destruct (Hh Hs) as [Ht _]. congruence. }
    assert (Hany : forall s2, _prompt_cache s2 = _prompt_cache s ->
              (forall a, a <> self -> obj a s2 = obj a s) -> confined self s s2).
    { intros s2 Hc2 Ho2. split; [exact Hc2|]. split; [exact Ho2|].
      intros Ht. congruence. }
    destruct Hb as (Hbc & Hbo & _).
    destruct (load_cn_hubert E) as [[]|e].
    + apply (Hc (with_cn_hubert true (with_call LoadCnHubert s1))
               (Hany (with_cn_hubert true (with_call LoadCnHubert s1)) Hbc Hbo)
               r s'). exact H.
    + injection H as <- <-. apply (Hany (with_call LoadCnHubert s1) Hbc Hbo).
Qed.

Lemma init_confined (self : nat) (prompt_wav prompt_text language : str)
    (s s' : state) (r : result unit) :
  __init__ E self prompt_wav prompt_text language s = (r, s') ->
  confined self s s'.
Proof.
  intros H. destruct (_initialized (obj self s)) as [b|] eqn:Hi.
  - rewrite init_initialized in H by (rewrite Hi; eauto).
    injection H as <- <-. apply confined_refl.
  - unfold __init__ in H.
    unfold mbind at 1, M_bind at 1, read at 1 in H. rewrite Hi in H.
    unfold mbind, M_bind, assign, mret, M_ret in H.
    normalize_state_in H.
    destruct (set_text E self prompt_text language _) as [r1 s1] eqn:Hst in H.
    apply set_text_confined in Hst.
    assert (H1 : confined self s s1).
    { eapply confined_trans; [apply confined_put | exact Hst]. }
    destruct r1 as [[]|e]; [|injection H as <- <-; exact H1].
    destruct (init_audio E self prompt_wav s1) as [r2 s2] eqn:Hau.
    apply init_audio_confined in Hau.
    assert (s' = s2) by (destruct r2; congruence). subst s'.
    eapply confined_trans; eassumption.
Qed.

(** What a request does to the cache and to the rest of the state. *)
Lemma request_effect (prompt_wav prompt_text language : str)
    (s s' : state) (r : result nat) :
  request E prompt_wav prompt_text language s = (r, s') ->
  match lookup prompt_wav (_prompt_cache s) with
  | Some l => confined l (refreshed prompt_wav l s) s'
  | None => confined (next_addr s) (created prompt_wav s) s'
  end.
Proof.
  intros H. rewrite request_run in H.
  destruct (lookup prompt_wav (_prompt_cache s)) as [l|] eqn:Hlook.
  - rewrite (new_present E _ _ _ _ _ Hlook) in H.
    destruct (text (obj l s)) as [t|];
      [|injection H as <- <-; apply confined_refl].
    assert (Hinit : forall s0 r s',
              confined l (refreshed prompt_wav l s) s0 ->
              (let (r1, s1) := __init__ E l prompt_wav prompt_text language s0 in
               (match r1 with Ok _ => Ok l | Raise e => Raise e end, s1))
                = (r, s') ->
              confined l (refreshed prompt_wav l s) s').
    { intros s0 r0 s0' H0 Hrun.
      destruct (__init__ E l prompt_wav prompt_text language s0)
        as [r1 s1] eqn:Hi.
      apply init_confined in Hi. injection Hrun as <- <-.
      eapply confined_trans; eassumption. }
    destruct (negb (str_eqb t prompt_text) || _)%bool.
    + destruct (set_text E l prompt_text language (refreshed prompt_wav l s))
        as [r0 s0] eqn:Hst.
      apply set_text_confined in Hst.
      destruct r0 as [[]|e]; [|injection H as <- <-; exact Hst].
      apply (Hinit s0 r s' Hst H).
    + apply (Hinit _ r s' (confined_refl _ _) H).
  - rewrite (new_absent E _ _ _ _ Hlook) in H.
    destruct (__init__ E (next_addr s) prompt_wav prompt_text language
                (created prompt_wav s)) as [r1 s1] eqn:Hi.
    apply init_confined in Hi.
    assert (s' = s1) by (destruct r1; congruence). subst s'. exact Hi.
Qed.

(** X: a request, whether it returns or raises, changes no object other
    than the entry of its own key; when the key is cached, every other key
    stays mapped to the object it was mapped to. *)
Theorem request_frame (prompt_wav prompt_text language : str)
    (s s' : state) (r : result nat) :
  request E prompt_wav prompt_text language s = (r, s') ->
  let target := default (next_addr s) (lookup prompt_wav (_prompt_cache s)) in
  (forall a, a <> target -> obj a s' = obj a s)
  /\ (is_Some (lookup prompt_wav (_prompt_cache s)) ->
      forall k, k <> prompt_wav ->
        lookup k (_prompt_cache s') = lookup k (_prompt_cache s)).
Proof.
  intros H. apply request_effect in H. cbv zeta.
  destruct (lookup prompt_wav (_prompt_cache s)) as [l|] eqn:Hlook;
    destruct H as (Hc & Ho & _); cbn [default].
  - split; [exact Ho|]. intros _ k Hk. rewrite Hc.
    unfold refreshed. cbn [_prompt_cache with_cache].
    rewrite lookup_without_ne by exact Hk.
    destruct (_prompt_cache s). reflexivity.
  - split; [|intros [x Hx]; discriminate].
    intros a Ha. rewrite (Ho a Ha). apply obj_created_ne, Ha.
Qed.

(** X: once the audio encoder is loaded, a request leaves it loaded and
    never loads it again, whatever else it does. *)
Theorem encoder_loaded_once (prompt_wav prompt_text language : str)
    (s s' : state) (r : result nat) :
  cn_hubert s = true ->
  request E prompt_wav prompt_text language s = (r, s') ->
  cn_hubert s' = true
  /\ exists more, calls s' = calls s ++ more /\ (LoadCnHubert ∉ more).
Proof.
  intros Hflag H. apply request_effect in H.
  destruct (lookup prompt_wav (_prompt_cache s)) as [l|];
    destruct H as (_ & _ & Hh); apply Hh; exact Hflag.
Qed.

(** X: a request keeps the cache well formed: one entry per key and no
    more entries than the capacity, which it does not change. *)
Theorem request_keeps_cache (prompt_wav prompt_text language : str)
    (s s' : state) (r : result nat) :
  cache_ok (_prompt_cache s) ->
  request E prompt_wav prompt_text language s = (r, s') ->
  cache_ok (_prompt_cache s')
  /\ capacity (_prompt_cache s') = capacity (_prompt_cache s).
Proof.
  intros Hok H. apply request_effect in H.
  destruct (lookup prompt_wav (_prompt_cache s)) as [l|] eqn:Hlook;
    destruct H as (Hc & _ & _); rewrite Hc.
  - split; [apply refreshed_ok; assumption | reflexivity].
  - split; [apply setitem_ok, Hok | reflexivity].
Qed.

End WithExternals.

(** [creation] on the first request of a process. *)
Lemma creation_witness :
  lookup Fixtures.wav (_prompt_cache Fixtures.fresh) = None
  /\ phones_of Fixtures.working (u "ja") (u "ka") = Ok [2; 1]%Z
  /\ exists s',
       request Fixtures.working Fixtures.wav (u "ka") (u "ja") Fixtures.fresh
         = (Ok 0%nat, s')
       /\ obj 0 s' = Fixtures.entry_ka.
Proof.
  split; [reflexivity|]. split; [reflexivity|].
  destruct (creation Fixtures.working Fixtures.wav (u "ka") (u "ja")
              Fixtures.fresh [2; 1]%Z [[0; 0]; [0; 0]]%Z [7; 8]%Z [7; 8]%Z
              (NDArray [1%nat] [7; 8]%Z) [] eq_refl eq_refl eq_refl eq_refl
              eq_refl (fun _ => eq_refl) eq_refl)
    as (s' & Hreq & Hobj & _).
  exists s'. split; [exact Hreq | exact Hobj].
Defined.

(** [set_text_rows] on a Chinese text of one syllable: the model gives one
    row, the two phonemes get two. *)
Lemma set_text_rows_witness :
  exists s',
    set_text Fixtures.working 0 [0x6F22] (u "zh") Fixtures.cached = (Ok tt, s')
    /\ text_bert (obj 0 s') = Some (Some [[1; 1]; [0; 0]]%Z).
Proof.
  destruct (set_text Fixtures.working 0 [0x6F22] (u "zh") Fixtures.cached)
    as [r s'] eqn:Hrun.
  assert (Hr : r = Ok tt).
  { change r with (fst (r, s')). rewrite <- Hrun. vm_compute. reflexivity. }
  subst r. exists s'. split; [reflexivity|].
  destruct (set_text_rows Fixtures.working 0 [0x6F22] (u "zh") Fixtures.cached
              s' Hrun) as (ids & features & _ & Hf & _).
  rewrite Hf. change s' with (snd (Ok tt, s')) in Hf. rewrite <- Hrun in Hf.
  vm_compute in Hf. injection Hf as <-. reflexivity.
Defined.

(** [set_text_features_fail] on the cached entry, with the text-embedding
    model down. *)
Lemma set_text_features_fail_witness :
  phones_of Fixtures.no_bert (u "zh") [0x6F22] = Ok [3; 4]%Z
  /\ features_of Fixtures.no_bert (u "zh") [0x6F22] 2
     = Raise (CollaboratorFailure BertModel)
  /\ exists s',
       set_text Fixtures.no_bert 0 [0x6F22] (u "zh") Fixtures.cached
         = (Raise (CollaboratorFailure BertModel), s')
       /\ phonemes_seq (obj 0 s') = Some (Some [[3; 4]]%Z)
       /\ text_bert (obj 0 s') = Some (Some [[0; 0]; [0; 0]]%Z).
Proof.
  split; [reflexivity|]. split; [reflexivity|].
  destruct (set_text_features_fail Fixtures.no_bert 0 [0x6F22] (u "zh")
              Fixtures.cached [3; 4]%Z (CollaboratorFailure BertModel)
              eq_refl eq_refl) as (s' & Hrun & Hobj).
  exists s'. split; [exact Hrun|]. rewrite Hobj. split; reflexivity.
Defined.

(** [request_frame], [encoder_loaded_once] and [request_keeps_cache] on a
    request for a second recording. *)
Lemma request_frame_witness :
  obj 0 (snd (request Fixtures.working (u "b.wav") (u "ka") (u "ja")
                Fixtures.cached)) = Fixtures.entry_ka.
Proof.
  destruct (request Fixtures.working (u "b.wav") (u "ka") (u "ja")
              Fixtures.cached) as [r s'] eqn:Hrun.
  destruct (request_frame Fixtures.working _ _ _ _ _ _ Hrun) as [H _].
  cbn [snd]. rewrite (H 0%nat); [reflexivity|].
  vm_compute. discriminate.
Defined.

Lemma encoder_loaded_once_witness :
  cn_hubert Fixtures.cached = true
  /\ cn_hubert (snd (request Fixtures.working (u "b.wav") (u "ka") (u "ja")
                       Fixtures.cached)) = true.
Proof.
  split; [reflexivity|].
  destruct (request Fixtures.working (u "b.wav") (u "ka") (u "ja")
              Fixtures.cached) as [r s'] eqn:Hrun.
  destruct (encoder_loaded_once Fixtures.working _ _ _ Fixtures.cached _ _
              eq_refl Hrun) as [H _].
  exact H.
Defined.

Lemma request_keeps_cache_witness :
  cache_ok (_prompt_cache Fixtures.cached)
  /\ cache_ok (_prompt_cache
                 (snd (request Fixtures.working (u "b.wav") (u "ka") (u "ja")
                         Fixtures.cached))).
Proof.
  assert (Hok : cache_ok (_prompt_cache Fixtures.cached)).
  { split; [|cbn; lia]. apply (bool_decide_unpack _). vm_compute. exact I. }
  split; [exact Hok|].
  destruct (request Fixtures.working (u "b.wav") (u "ka") (u "ja")
              Fixtures.cached) as [r s'] eqn:Hrun.
  destruct (request_keeps_cache Fixtures.working _ _ _ _ _ _ Hok Hrun) as [H _].
  exact H.
Defined.

End AudioMore.
